(** * Collaborative-editing synchronizer: conflict detector, resolution
      strategies and sync coordinator

    Shallow embedding of [src/collaboration/conflict_resolver.py] and
    [src/collaboration/sync_manager.py].

    Python objects are shared by reference.  [SyncOperation], [Conflict] and
    [asyncio.Queue] instances therefore live in stores (lists indexed by an
    object identity) and every list, queue or dictionary of the program holds
    identities, not copies: an assignment to a field of an operation is seen
    through every alias of that operation.

    Methods are computations in a state-and-exception monad over the whole
    [World]; [try ... except Exception] is [try_except].  An exception keeps
    the state changes made before it was raised, as in Python.

    Python integers are unbounded ([Z]); a string is its sequence of
    characters, [len] its length. *)

From Stdlib Require Import ZArith Lia.
From stdpp Require Import gmap strings list fin_maps sorting.

Open Scope string_scope.
Open Scope Z_scope.
Open Scope list_scope.

(** ** Exceptions and outcomes *)

Inductive exn : Type :=
  | AttributeError
  | TypeError
  | KeyError
  | IndexError
  | ValueError
  | PermissionError
  | RuntimeError
  | CollaboratorError (msg : string).

Inductive outcome (A : Type) : Type :=
  | Ok (a : A)
  | Raise (e : exn).
Arguments Ok {A} a.
Arguments Raise {A} e.

Definition is_raise {A} (o : outcome A) : bool :=
  match o with Ok _ => false | Raise _ => true end.

(** ** Data model *)

(** Identity of a [SyncOperation] object, of a [Conflict] object and of an
    [asyncio.Queue] object. *)
Abbreviation ref := nat (only parsing).
Abbreviation cref := nat (only parsing).
Abbreviation qref := nat (only parsing).

(** [sync_manager.SyncOperation].  [timestamp] is a float in the source; it is
    only ordered and copied, and is an integer tick here. *)
Record SyncOperation : Type := mkSyncOperation {
  operation_type : string;
  path : string;
  content : option string;
  position : option Z;
  user_id : string;
  timestamp : Z;
  version : Z
}.

#[global] Instance SyncOperation_inhabited : Inhabited SyncOperation :=
  populate (mkSyncOperation "" "" None None "" 0 0).

Definition set_position (p : option Z) (o : SyncOperation) : SyncOperation :=
  mkSyncOperation (operation_type o) (path o) (content o) p
                  (user_id o) (timestamp o) (version o).

Definition set_version (v : Z) (o : SyncOperation) : SyncOperation :=
  mkSyncOperation (operation_type o) (path o) (content o) (position o)
                  (user_id o) (timestamp o) v.

(** [conflict_resolver.Conflict]; the fields [operations], [users] and
    [timestamp] carry a prefix because [SyncState] and [SyncOperation] have
    fields of the same names. *)
Record Conflict : Type := mkConflict {
  conflict_operations : list ref;
  conflict_users : list string;
  conflict_timestamp : Z;
  resolved : bool;
  resolution : option ref
}.

#[global] Instance Conflict_inhabited : Inhabited Conflict :=
  populate (mkConflict [] [] 0 false None).

(** The dictionaries the coordinator broadcasts (only the fields that
    identify the event; the message texts of a conflict event are constant
    strings chosen by [severity]). *)
Inductive event : Type :=
  | UserEvent (type user : string) (ts : Z)
  | LockEvent (type file user : string) (ts : Z)
  | ConflictEvent (file : string) (involved : list string) (ts : Z)
                  (severity : string) (conflict_id : Z)
  | CommitEvent (user commit_hash : string) (ts : Z) (files : list string).

(** What a subscriber queue holds: an operation object or an event. *)
Inductive item : Type :=
  | ItemOperation (r : ref)
  | ItemEvent (e : event).

Inductive metric_entry : Type :=
  | Recorded (name : string)
  | RecordedError (name : string) (e : exn).

(** [sync_manager.SyncState]; [state_version] is the field [version]. *)
Record SyncState : Type := mkSyncState {
  state_version : Z;
  state_operations : list ref;
  users : gset string;
  locked_files : gmap string string;
  recent_operations : gmap string (list ref)
}.

(** The [SyncManager] object together with its [ConflictResolver] and the
    object stores. *)
Record World : Type := mkWorld {
  heap : list SyncOperation;
  conflict_heap : list Conflict;
  queues : list (list item);
  state : SyncState;
  operation_queue : list ref;
  subscribers : gmap string (gset qref);
  pending_operations : gmap string (list ref);
  metrics : list metric_entry;
  conflicts : gmap string (list cref);
  resolver_metrics : list metric_entry;
  running : bool
}.

Definition recent_ops_limit : nat := 10.

(** [SyncManager.__init__]. *)
Definition init_state : SyncState := mkSyncState 0 [] ∅ ∅ ∅.
Definition init_world : World :=
  mkWorld [] [] [] init_state [] ∅ ∅ [] ∅ [] false.

(** Field updates. *)
Definition with_heap (h : list SyncOperation) (w : World) : World :=
  mkWorld h (conflict_heap w) (queues w) (state w) (operation_queue w)
    (subscribers w) (pending_operations w) (metrics w) (conflicts w)
    (resolver_metrics w) (running w).
Definition with_conflict_heap (c : list Conflict) (w : World) : World :=
  mkWorld (heap w) c (queues w) (state w) (operation_queue w)
    (subscribers w) (pending_operations w) (metrics w) (conflicts w)
    (resolver_metrics w) (running w).
Definition with_queues (q : list (list item)) (w : World) : World :=
  mkWorld (heap w) (conflict_heap w) q (state w) (operation_queue w)
    (subscribers w) (pending_operations w) (metrics w) (conflicts w)
    (resolver_metrics w) (running w).
Definition with_state (s : SyncState) (w : World) : World :=
  mkWorld (heap w) (conflict_heap w) (queues w) s (operation_queue w)
    (subscribers w) (pending_operations w) (metrics w) (conflicts w)
    (resolver_metrics w) (running w).
Definition with_operation_queue (q : list ref) (w : World) : World :=
  mkWorld (heap w) (conflict_heap w) (queues w) (state w) q
    (subscribers w) (pending_operations w) (metrics w) (conflicts w)
    (resolver_metrics w) (running w).
Definition with_subscribers (s : gmap string (gset qref)) (w : World) : World :=
  mkWorld (heap w) (conflict_heap w) (queues w) (state w) (operation_queue w)
    s (pending_operations w) (metrics w) (conflicts w)
    (resolver_metrics w) (running w).
Definition with_pending_operations (p : gmap string (list ref)) (w : World)
  : World :=
  mkWorld (heap w) (conflict_heap w) (queues w) (state w) (operation_queue w)
    (subscribers w) p (metrics w) (conflicts w)
    (resolver_metrics w) (running w).
Definition with_metrics (m : list metric_entry) (w : World) : World :=
  mkWorld (heap w) (conflict_heap w) (queues w) (state w) (operation_queue w)
    (subscribers w) (pending_operations w) m (conflicts w)
    (resolver_metrics w) (running w).
Definition with_conflicts (c : gmap string (list cref)) (w : World) : World :=
  mkWorld (heap w) (conflict_heap w) (queues w) (state w) (operation_queue w)
    (subscribers w) (pending_operations w) (metrics w) c
    (resolver_metrics w) (running w).
Definition with_resolver_metrics (m : list metric_entry) (w : World) : World :=
  mkWorld (heap w) (conflict_heap w) (queues w) (state w) (operation_queue w)
    (subscribers w) (pending_operations w) (metrics w) (conflicts w)
    m (running w).
Definition with_running (b : bool) (w : World) : World :=
  mkWorld (heap w) (conflict_heap w) (queues w) (state w) (operation_queue w)
    (subscribers w) (pending_operations w) (metrics w) (conflicts w)
    (resolver_metrics w) b.

Definition with_state_version (v : Z) (s : SyncState) : SyncState :=
  mkSyncState v (state_operations s) (users s) (locked_files s)
    (recent_operations s).
Definition with_users (u : gset string) (s : SyncState) : SyncState :=
  mkSyncState (state_version s) (state_operations s) u (locked_files s)
    (recent_operations s).
Definition with_locked_files (l : gmap string string) (s : SyncState)
  : SyncState :=
  mkSyncState (state_version s) (state_operations s) (users s) l
    (recent_operations s).
Definition with_recent_operations (r : gmap string (list ref)) (s : SyncState)
  : SyncState :=
  mkSyncState (state_version s) (state_operations s) (users s)
    (locked_files s) r.

(** ** The state-and-exception monad *)

Definition M (A : Type) : Type := World -> World * outcome A.

Definition ret {A} (a : A) : M A := fun w => (w, Ok a).
Definition raise {A} (e : exn) : M A := fun w => (w, Raise e).
Definition bind {A B} (m : M A) (k : A -> M B) : M B :=
  fun w => match m w with
           | (w', Ok a) => k a w'
           | (w', Raise e) => (w', Raise e)
           end.
Definition get_world : M World := fun w => (w, Ok w).
Definition modify_world (f : World -> World) : M unit :=
  fun w => (f w, Ok tt).
Definition lift_outcome {A} (o : outcome A) : M A := fun w => (w, o).

(** [try: body except Exception as e: handler e]. *)
Definition try_except {A} (body : M A) (handler : exn -> M A) : M A :=
  fun w => match body w with
           | (w', Ok a) => (w', Ok a)
           | (w', Raise e) => handler e w'
           end.

Declare Scope py_scope.
Delimit Scope py_scope with py.
Notation "'do' x <- m ; k" := (bind m (fun x => k))
  (at level 10, x name, m at level 100, k at level 200) : py_scope.
Notation "'run' m ; k" := (bind m (fun _ => k))
  (at level 10, m at level 100, k at level 200) : py_scope.
Open Scope py_scope.

(** Reading an operation through its identity. *)
Definition deref (w : World) (r : ref) : SyncOperation := heap w !!! r.

(** Constructing a new [SyncOperation] object. *)
Definition alloc_operation (o : SyncOperation) : M ref :=
  fun w => (with_heap (heap w ++ [o]) w, Ok (length (heap w))).

Definition alloc_conflict (c : Conflict) : M cref :=
  fun w => (with_conflict_heap (conflict_heap w ++ [c]) w,
            Ok (length (conflict_heap w))).

(** ** Collaborators

    The storage collaborator, the file system, the clock and [difflib] are
    outside the synchronizer.  What the coordinator sees of them is whether a
    call returns or raises, and what it returns. *)
Record Collaborators : Type := mkCollaborators {
  (** [datetime.now().timestamp()] *)
  now : Z;
  (** [Path(p).exists()] *)
  path_exists : string -> bool;
  (** [db_manager.record_operation]: [Some e] when the call raises [e] *)
  db_record_operation : SyncOperation -> option exn;
  (** [db_manager.record_conflict]: the id of the stored conflict *)
  db_record_conflict : string -> list Z -> outcome Z;
  (** [vc_manager.stage_changes]; it catches its own failures *)
  vc_stage_changes : list SyncOperation -> bool;
  (** [vc_manager.commit_changes] of the staged operations for an author:
      the commit hash, or [None] *)
  vc_commit_changes : list SyncOperation -> string -> option string;
  (** [str.splitlines(True)] *)
  splitlines : string -> list string;
  (** [list(difflib.Differ().compare(a, b))] *)
  differ_compare : list string -> list string -> list string
}.

(** Modelled from the spec: [MetricsTracker.record] and
    [MetricsTracker.record_error], which [SyncManager] and [ConflictResolver]
    call on their own tracker and which [monitoring/metrics.py] does not
    define.  The spec has a failure "recorded in metrics" and a resolution
    error "logged": the call adds an entry to the tracker and returns. *)
Definition metrics_record (name : string) : M unit :=
  modify_world (fun w => with_metrics (metrics w ++ [Recorded name]) w).
Definition metrics_record_error (name : string) (e : exn) : M unit :=
  modify_world (fun w => with_metrics (metrics w ++ [RecordedError name e]) w).
Definition resolver_record_error (name : string) (e : exn) : M unit :=
  modify_world (fun w =>
    with_resolver_metrics (resolver_metrics w ++ [RecordedError name e]) w).

(** ** Conflict detector ([conflict_resolver.py]) *)

(** Modelled from the spec: [ConflictResolver._modifications_overlap], which
    [_operations_conflict] calls and which is defined nowhere in the sources.
    The spec (4.2 (a), 9): two [modify] operations are "treated as conflicting
    whenever they target the same path within the recent window"; the check
    "always conflicts two modifies on the same path". *)
Definition _modifications_overlap (op1 op2 : SyncOperation) : bool := true.

(** [ConflictResolver._operations_conflict]. *)
Definition _operations_conflict (op1 op2 : SyncOperation) : outcome bool :=
  if bool_decide (path op1 ≠ path op2) then Ok false
  else if bool_decide (user_id op1 = user_id op2) then Ok false
  else if bool_decide (operation_type op1 = "modify")
          && bool_decide (operation_type op2 = "modify")
       then Ok (_modifications_overlap op1 op2)
  else if bool_decide (operation_type op1 = "delete")
          || bool_decide (operation_type op2 = "delete")
       then Ok true
  else if bool_decide (operation_type op1 = "insert")
          && bool_decide (operation_type op2 = "insert")
       then match position op1, position op2 with
            | Some p1, Some p2 => Ok (bool_decide (Z.abs (p1 - p2) < 2))
            | _, _ => Raise TypeError
            end
  else Ok false.

(** The loop [for recent in recent_operations: if ...: conflicts.append(recent)]
    of [check_conflict]; the first raising test ends it. *)
Fixpoint collect_conflicts (h : list SyncOperation) (operation : SyncOperation)
    (recent_operations : list ref) : outcome (list ref) :=
  match recent_operations with
  | [] => Ok []
  | recent :: rest =>
      match _operations_conflict operation (h !!! recent) with
      | Raise e => Raise e
      | Ok b =>
          match collect_conflicts h operation rest with
          | Raise e => Raise e
          | Ok cs => Ok (if b then recent :: cs else cs)
          end
      end
  end.

(** [list(set(op.user_id for op in ops))]: the distinct user ids. *)
Definition distinct_users (h : list SyncOperation) (ops : list ref)
  : list string :=
  elements (list_to_set ((fun r => user_id (h !!! r)) <$> ops) : gset string).

(** [self.conflicts[path].append(conflict)], creating the list when absent. *)
Definition register_conflict (p : string) (c : cref) : M unit :=
  modify_world (fun w =>
    with_conflicts (<[p := default [] (conflicts w !! p) ++ [c]]> (conflicts w)) w).

(** ** Resolution strategies ([conflict_resolver.py]) *)

(** [sorted(xs, key=k)] with integer keys.  Python's sort is stable: among
    equal keys the input order is kept. *)
Fixpoint insert_by (key : ref -> Z) (x : ref) (l : list ref) : list ref :=
  match l with
  | [] => [x]
  | y :: l' => if key x <=? key y then x :: y :: l' else y :: insert_by key x l'
  end.
Definition sort_by (key : ref -> Z) (l : list ref) : list ref :=
  foldr (insert_by key) [] l.

(** [sorted(operations, key=lambda x: x.position)].  Comparing [None] with
    anything raises [TypeError]; a list of fewer than two elements is never
    compared. *)
Definition sorted_by_position (h : list SyncOperation) (operations : list ref)
  : outcome (list ref) :=
  match operations with
  | [] => Ok []
  | [x] => Ok [x]
  | _ =>
      if forallb (fun r => bool_decide (is_Some (position (h !!! r)))) operations
      then Ok (sort_by (fun r => default 0 (position (h !!! r))) operations)
      else Raise TypeError
  end.

(** [op.position = p]: assignment through the reference. *)
Definition assign_position (op : ref) (p : Z) : M unit :=
  modify_world (fun w =>
    with_heap (<[op := set_position (Some p) (heap w !!! op)]> (heap w)) w).

(** The loop [for op in sorted_ops] of [_resolve_insert_conflict], with the
    running [current_pos] and [merged_content]. *)
Fixpoint insert_loop (sorted_ops : list ref) (current_pos : option Z)
    (merged_content : string) : M string :=
  match sorted_ops with
  | [] => ret merged_content
  | op :: rest =>
      do w <- get_world;
      match position (deref w op), current_pos with
      | Some p, Some c =>
          (* if op.position <= current_pos: op.position = current_pos + 1 *)
          let p' := if p <=? c then c + 1 else p in
          run (if p <=? c then assign_position op (c + 1) else ret tt);
          (* merged_content += op.content *)
          match content (deref w op) with
          | None => raise TypeError
          | Some s =>
              (* current_pos = op.position + len(op.content) *)
              insert_loop rest (Some (p' + Z.of_nat (String.length s)))
                          (merged_content +:+ s)
          end
      | _, _ => raise TypeError
      end
  end.

(** [l.startswith('  ') or l.startswith('+ ')] and [l[2:]]. *)
Definition kept_line (l : string) : bool :=
  String.prefix "  " l || String.prefix "+ " l.
Fixpoint string_drop (n : nat) (s : string) : string :=
  match n, s with
  | O, _ => s
  | S n', String _ s' => string_drop n' s'
  | S _, EmptyString => EmptyString
  end.
Fixpoint join (ls : list string) : string :=
  match ls with
  | [] => ""
  | l :: ls' => l +:+ join ls'
  end.

(** A list of optional strings as a list of strings, when none is [None]. *)
Fixpoint all_strings (cs : list (option string)) : option (list string) :=
  match cs with
  | [] => Some []
  | None :: _ => None
  | Some c :: cs' =>
      match all_strings cs' with
      | Some l => Some (c :: l)
      | None => None
      end
  end.

Section Definitions.
Context (env : Collaborators).

(** The [try] block of [check_conflict]. *)
Definition check_conflict_body (operation : ref) (recent_operations : list ref)
  : M (option cref) :=
  do w <- get_world;
  do found <- lift_outcome
      (collect_conflicts (heap w) (deref w operation) recent_operations);
  match found with
  | [] => ret None
  | _ :: _ =>
      do c <- alloc_conflict
          (mkConflict (operation :: found)
                      (distinct_users (heap w) (found ++ [operation]))
                      (now env) false None);
      run register_conflict (path (deref w operation)) c;
      ret (Some c)
  end.

(** [ConflictResolver.check_conflict]. *)
Definition check_conflict (operation : ref) (recent_operations : list ref)
  : M (option cref) :=
  try_except (check_conflict_body operation recent_operations)
    (fun e => run resolver_record_error "conflict_check_error" e; ret None).

(** [ConflictResolver._merge_changes]: [None] when a content is [None]
    (the [AttributeError] of [splitlines] is caught). *)
Definition merge_step (current change : list string) : list string :=
  string_drop 2 <$> filter (fun l => kept_line l = true)
                           (differ_compare env current change).
Definition _merge_changes (base : option string) (changes : list (option string))
  : option string :=
  match base with
  | None => None
  | Some b =>
      match all_strings changes with
      | None => None
      | Some cs =>
          Some (join (foldl merge_step (splitlines env b) (splitlines env <$> cs)))
      end
  end.

(** [ConflictResolver._resolve_modify_conflict]. *)
Definition _resolve_modify_conflict_body (operations : list ref)
  : M (option ref) :=
  do w <- get_world;
  match sort_by (fun r => timestamp (deref w r)) operations with
  | [] => raise IndexError
  | first :: rest =>
      match _merge_changes (content (deref w first))
                           ((fun r => content (deref w r)) <$> rest) with
      | None => ret None
      | Some merged_content =>
          (* if merged_content: the empty string is falsy *)
          if bool_decide (merged_content = "") then ret None
          else
            match operations with
            | [] => raise IndexError
            | op0 :: _ =>
                do r <- alloc_operation
                    (mkSyncOperation "modify" (path (deref w op0))
                       (Some merged_content) None "system" (now env) (-1));
                ret (Some r)
            end
      end
  end.
Definition _resolve_modify_conflict (operations : list ref) : M (option ref) :=
  try_except (_resolve_modify_conflict_body operations)
    (fun e => run resolver_record_error "modify_resolution_error" e; ret None).

(** [ConflictResolver._resolve_delete_conflict]: [next(...)] over an
    iterator without a [delete] raises inside the coroutine. *)
Definition _resolve_delete_conflict (operations : list ref) : M (option ref) :=
  do w <- get_world;
  match List.find (fun r => bool_decide (operation_type (deref w r) = "delete"))
                  operations with
  | Some delete_op => ret (Some delete_op)
  | None => raise RuntimeError
  end.

(** [ConflictResolver._resolve_insert_conflict]. *)
Definition _resolve_insert_conflict_body (operations : list ref)
  : M (option ref) :=
  do w <- get_world;
  do sorted_ops <- lift_outcome (sorted_by_position (heap w) operations);
  match sorted_ops, operations with
  | first :: _, op0 :: _ =>
      do merged_content <- insert_loop sorted_ops (position (deref w first)) "";
      do w' <- get_world;
      do r <- alloc_operation
          (mkSyncOperation "insert" (path (deref w' op0)) (Some merged_content)
             (position (deref w' first)) "system" (now env) (-1));
      ret (Some r)
  | _, _ => raise IndexError
  end.
Definition _resolve_insert_conflict (operations : list ref) : M (option ref) :=
  try_except (_resolve_insert_conflict_body operations)
    (fun e => run resolver_record_error "insert_resolution_error" e; ret None).

(** [self.resolution_strategies.get(kind)]. *)
Definition resolution_strategies (kind : string)
  : option (list ref -> M (option ref)) :=
  if bool_decide (kind = "modify") then Some _resolve_modify_conflict
  else if bool_decide (kind = "delete") then Some _resolve_delete_conflict
  else if bool_decide (kind = "insert") then Some _resolve_insert_conflict
  else None.

(** [conflict.resolved = True; conflict.resolution = resolution]. *)
Definition mark_resolved (c : cref) (r : ref) : M unit :=
  modify_world (fun w =>
    let old := conflict_heap w !!! c in
    with_conflict_heap
      (<[c := mkConflict (conflict_operations old) (conflict_users old)
                (conflict_timestamp old) true (Some r)]> (conflict_heap w)) w).

(** [ConflictResolver.resolve_conflict]. *)
Definition resolve_conflict_body (c : cref) : M (option ref) :=
  do w <- get_world;
  let operations := conflict_operations (conflict_heap w !!! c) in
  match operations with
  | [] => raise IndexError
  | [only] => ret (Some only)
  | primary :: _ =>
      match resolution_strategies (operation_type (deref w primary)) with
      | None => ret None
      | Some strategy =>
          do resolution <- strategy operations;
          match resolution with
          | Some r => run mark_resolved c r; ret (Some r)
          | None => ret None
          end
      end
  end.
Definition resolve_conflict (c : cref) : M (option ref) :=
  try_except (resolve_conflict_body c)
    (fun e => run resolver_record_error "conflict_resolution_error" e; ret None).

(** ** Sync coordinator ([sync_manager.py]) *)

(** [await queue.put(x)]: the queues are unbounded, the call never waits. *)
Definition queue_put (x : item) (q : qref) : M unit :=
  modify_world (fun w =>
    with_queues (<[q := (queues w !!! q) ++ [x]]> (queues w)) w).

(** [for queue in qs: await queue.put(x)]. *)
Fixpoint put_each (x : item) (qs : list qref) : M unit :=
  match qs with
  | [] => ret tt
  | q :: rest => run queue_put x q; put_each x rest
  end.

(** [if key in self.subscribers: for queue in self.subscribers[key]: ...]. *)
Definition notify (key : string) (x : item) : M unit :=
  do w <- get_world;
  match subscribers w !! key with
  | Some qs => put_each x (elements qs)
  | None => ret tt
  end.

Fixpoint notify_each (keys : list string) (x : item) : M unit :=
  match keys with
  | [] => ret tt
  | k :: rest => run notify k x; notify_each rest x
  end.

(** [SyncManager._broadcast_user_event]. *)
Definition _broadcast_user_event (event_type user : string) : M unit :=
  do w <- get_world;
  notify_each (elements (users (state w)))
    (ItemEvent (UserEvent ("user_" +:+ event_type) user (now env))).

(** [SyncManager._broadcast_lock_event]. *)
Definition _broadcast_lock_event (event_type file user : string) : M unit :=
  notify file (ItemEvent (LockEvent ("lock_" +:+ event_type) file user (now env))).

(** [SyncManager._broadcast_operation]: the queue receives the operation
    object itself. *)
Definition _broadcast_operation (operation : ref) : M unit :=
  do w <- get_world;
  notify (path (deref w operation)) (ItemOperation operation).

(** [SyncManager.connect_user].  [create_branch_for_user] and
    [update_user_activity] catch every exception of their own and only touch
    the collaborators. *)
Definition connect_user (user : string) : M unit :=
  run modify_world (fun w =>
        with_state (with_users ({[user]} ∪ users (state w)) (state w)) w);
  run modify_world (fun w => with_subscribers (<[user := ∅]> (subscribers w)) w);
  run modify_world (fun w =>
        with_pending_operations (<[user := []]> (pending_operations w)) w);
  _broadcast_user_event "connected" user.

(** [SyncManager._broadcast_commit_event]. *)
Definition _broadcast_commit_event (user commit_hash : string)
    (operations : list ref) : M unit :=
  do w <- get_world;
  notify_each (elements (users (state w)))
    (ItemEvent (CommitEvent user commit_hash (now env)
                  ((fun r => path (deref w r)) <$> operations))).

(** [SyncManager._commit_user_changes]; [if commit_hash:] is false for
    [None] and for the empty string. *)
Definition _commit_user_changes (user : string) : M unit :=
  do w <- get_world;
  match pending_operations w !! user with
  | None => raise KeyError
  | Some [] => ret tt
  | Some operations =>
      try_except
        (if vc_stage_changes env (deref w <$> operations)
         then match vc_commit_changes env (deref w <$> operations) user with
              | Some commit_hash =>
                  (* if commit_hash: *)
                  if bool_decide (commit_hash = "") then ret tt
                  else
                    run modify_world
                          (with_pending_operations
                             (<[user := []]> (pending_operations w)));
                    _broadcast_commit_event user commit_hash operations
              | None => ret tt
              end
         else ret tt)
        (fun e => metrics_record_error "commit_error" e)
  end.

(** [SyncManager._release_user_locks]. *)
Definition _release_user_locks (user : string) : M unit :=
  modify_world (fun w =>
    let paths_to_release :=
      (filter (fun kv => kv.2 = user) (map_to_list (locked_files (state w)))).*1 in
    with_state (with_locked_files
                  (foldr delete (locked_files (state w)) paths_to_release)
                  (state w)) w).

(** [SyncManager.disconnect_user]; [set.remove] and [del] raise [KeyError]
    for a user that is not registered. *)
Definition disconnect_user (user : string) : M unit :=
  do w <- get_world;
  run (match pending_operations w !! user with
       | Some (_ :: _) => _commit_user_changes user
       | _ => ret tt
       end);
  do w1 <- get_world;
  if bool_decide (user ∈ users (state w1))
  then
    run modify_world (fun w2 =>
          with_state (with_users (users (state w2) ∖ {[user]}) (state w2)) w2);
    run _release_user_locks user;
    do w3 <- get_world;
    match pending_operations w3 !! user with
    | None => raise KeyError
    | Some _ =>
        run modify_world (fun w4 =>
              with_pending_operations (delete user (pending_operations w4)) w4);
        _broadcast_user_event "disconnected" user
    end
  else raise KeyError.

(** [SyncManager.subscribe]. *)
Definition subscribe (user file : string) : M qref :=
  do w <- get_world;
  let queue := length (queues w) in
  run modify_world (with_queues (queues w ++ [[]]));
  run modify_world (fun w1 =>
        with_subscribers
          (<[file := {[queue]} ∪ default ∅ (subscribers w1 !! file)]>
             (subscribers w1)) w1);
  ret queue.

(** [SyncManager.unsubscribe]: [set.remove] raises [KeyError] on a missing
    element. *)
Definition unsubscribe (file : string) (queue : qref) : M unit :=
  do w <- get_world;
  match subscribers w !! file with
  | Some qs =>
      if bool_decide (queue ∈ qs)
      then modify_world
             (with_subscribers (<[file := qs ∖ {[queue]}]> (subscribers w)))
      else raise KeyError
  | None => ret tt
  end.

(** [SyncManager.acquire_lock]. *)
Definition acquire_lock (file user : string) : M bool :=
  do w <- get_world;
  match locked_files (state w) !! file with
  | Some _ => ret false
  | None =>
      run modify_world (fun w1 =>
            with_state (with_locked_files
                          (<[file := user]> (locked_files (state w1)))
                          (state w1)) w1);
      run _broadcast_lock_event "acquired" file user;
      ret true
  end.

(** [SyncManager.release_lock]. *)
Definition release_lock (file user : string) : M bool :=
  do w <- get_world;
  if bool_decide (locked_files (state w) !! file ≠ Some user) then ret false
  else
    run modify_world (fun w1 =>
          with_state (with_locked_files
                        (delete file (locked_files (state w1)))
                        (state w1)) w1);
    run _broadcast_lock_event "released" file user;
    ret true.

(** [SyncManager._validate_operation]. *)
Definition _validate_operation (w : World) (operation : SyncOperation) : bool :=
  if negb (bool_decide (operation_type operation ∈ ["insert"; "delete"; "modify"]))
  then false
  else if negb (path_exists env (path operation)) then false
  else if negb (bool_decide (user_id operation ∈ users (state w))) then false
  else true.

(** [SyncManager._can_modify_file]. *)
Definition _can_modify_file (w : World) (file user : string) : bool :=
  match locked_files (state w) !! file with
  | None => true
  | Some holder => bool_decide (holder = user)
  end.

(** [SyncManager._apply_operation]: every branch is [pass]. *)
Definition _apply_operation (operation : ref) : M unit := ret tt.

(** [SyncManager._update_recent_operations]. *)
Definition _update_recent_operations (operation : ref) : M unit :=
  modify_world (fun w =>
    let file := path (deref w operation) in
    let recent := default [] (recent_operations (state w) !! file) ++ [operation] in
    let recent' :=
      if bool_decide (recent_ops_limit < length recent)%nat then tail recent
      else recent in
    with_state (with_recent_operations
                  (<[file := recent']> (recent_operations (state w)))
                  (state w)) w).

(** [ConflictMessageGenerator.generate_message], as far as the event uses
    it: the severity, and the [IndexError] of [conflict.users[-1]] and of
    [conflict.operations[0]]. *)
Definition generate_message (w : World) (c : Conflict) : outcome string :=
  match conflict_operations c with
  | primary :: _ :: _ =>
      if bool_decide (operation_type (deref w primary) = "modify")
      then match conflict_users c with
           | [] => Raise IndexError
           | _ => Ok "warning"
           end
      else if bool_decide (operation_type (deref w primary) = "delete")
      then Ok "error"
      else if bool_decide (operation_type (deref w primary) = "insert")
      then Ok "warning"
      else Ok "info"
  | [_] => Ok "info"
  | [] => Raise IndexError
  end.

(** [SyncManager._broadcast_conflict]. *)
Definition _broadcast_conflict (c : cref) : M unit :=
  do w <- get_world;
  let conflict := conflict_heap w !!! c in
  do severity <- lift_outcome (generate_message w conflict);
  match conflict_operations conflict with
  | [] => raise IndexError
  | primary :: _ =>
      do conflict_id <- lift_outcome
          (db_record_conflict env (path (deref w primary))
             ((fun r => version (deref w r)) <$> conflict_operations conflict));
      notify_each (conflict_users conflict)
        (ItemEvent (ConflictEvent (path (deref w primary)) (conflict_users conflict)
                      (conflict_timestamp conflict) severity conflict_id))
  end.

(** The end of [push_operation]: queue, pending list, storage, metrics. *)
Definition enqueue_and_record (operation : ref) : M unit :=
  (* await self.operation_queue.put(operation) *)
  run modify_world (fun w =>
        with_operation_queue (operation_queue w ++ [operation]) w);
  do w <- get_world;
  (* self.pending_operations[operation.user_id].append(operation) *)
  match pending_operations w !! user_id (deref w operation) with
  | None => raise KeyError
  | Some pending =>
      run modify_world
            (with_pending_operations
               (<[user_id (deref w operation) := pending ++ [operation]]>
                  (pending_operations w)));
      (* await self.db_manager.record_operation(...) *)
      match db_record_operation env (deref w operation) with
      | Some e => raise e
      | None => metrics_record "sync_operation_pushed"
      end
  end.

(** The first part of [push_operation]: validation, lock check, conflict
    detection and resolution.  The result is the operation that goes on, or
    [None] after the [return] of the unresolved branch. *)
Definition intake (operation : ref) : M (option ref) :=
  do w <- get_world;
  let op := deref w operation in
  if negb (_validate_operation w op) then raise ValueError
  else if negb (_can_modify_file w (path op) (user_id op))
  then raise PermissionError
  else
    let recent_ops := default [] (recent_operations (state w) !! path op) in
    do conflict <- check_conflict operation recent_ops;
    match conflict with
    | None => ret (Some operation)
    | Some c =>
        do resolution <- resolve_conflict c;
        match resolution with
        | Some r => ret (Some r)
        | None => run _broadcast_conflict c; ret None
        end
    end.

(** [SyncManager.push_operation]. *)
Definition push_operation_body (operation : ref) : M unit :=
  do target <- intake operation;
  match target with
  | None => ret tt
  | Some operation' => enqueue_and_record operation'
  end.
Definition push_operation (operation : ref) : M unit :=
  try_except (push_operation_body operation)
    (fun e => run metrics_record_error "sync_operation_error" e; raise e).

(** [operation.version = self.state.version]. *)
Definition assign_version (operation : ref) : M unit :=
  modify_world (fun w =>
    with_heap (<[operation := set_version (state_version (state w))
                                 (heap w !!! operation)]> (heap w)) w).

(** One pass of the [try] block of [_process_operations] after the
    [get]: first the part up to the broadcast, then the version update. *)
Definition process_publish (operation : ref) : M unit :=
  run _apply_operation operation;
  run _update_recent_operations operation;
  _broadcast_operation operation.
Definition process_assign (operation : ref) : M unit :=
  (* self.state.version += 1 *)
  run modify_world (fun w =>
        with_state (with_state_version (state_version (state w) + 1) (state w)) w);
  run assign_version operation;
  metrics_record "sync_operation_processed".
Definition process_one (operation : ref) : M unit :=
  run process_publish operation;
  process_assign operation.

(** One turn of the [while] loop; [false] when the queue is empty and
    [operation_queue.get()] waits. *)
Definition process_iteration : M bool :=
  do w <- get_world;
  match operation_queue w with
  | [] => ret false
  | operation :: rest =>
      run try_except
            (run modify_world (with_operation_queue rest);
             process_one operation)
            (fun e => metrics_record_error "sync_processing_error" e);
      ret true
  end.

(** [SyncManager._process_operations], run until the queue is empty. *)
Fixpoint _process_operations (fuel : nat) : M unit :=
  match fuel with
  | O => ret tt
  | S fuel' =>
      do w <- get_world;
      if running w
      then do again <- process_iteration;
           if again then _process_operations fuel' else ret tt
      else ret tt
  end.

(** [SyncManager.start] and [stop], without the database set-up. *)
Definition start : M unit := modify_world (with_running true).
Definition stop : M unit := modify_world (with_running false).

End Definitions.

(** ** Producers and the consumer

    The producers (one task per session) build operation objects and call
    the public methods in any order; the consumer task takes its turns in
    between.  A schedule is one such interleaving.  A consumer turn on an
    empty queue waits; a turn on a non-empty queue runs to its end without
    suspending (the subscriber queues are unbounded, so no [put] waits). *)
Inductive call : Type :=
  | CallCreate (o : SyncOperation)
  | CallPush (operation : ref)
  | CallConnect (user : string)
  | CallDisconnect (user : string)
  | CallSubscribe (user file : string)
  | CallUnsubscribe (file : string) (queue : qref)
  | CallAcquire (file user : string)
  | CallRelease (file user : string).

Inductive action : Type :=
  | Producer (c : call)
  | Consumer.

Definition run_call (env : Collaborators) (c : call) (w : World) : World :=
  match c with
  | CallCreate o => (alloc_operation o w).1
  | CallPush operation => (push_operation env operation w).1
  | CallConnect user => (connect_user env user w).1
  | CallDisconnect user => (disconnect_user env user w).1
  | CallSubscribe user file => (subscribe user file w).1
  | CallUnsubscribe file queue => (unsubscribe file queue w).1
  | CallAcquire file user => (acquire_lock env file user w).1
  | CallRelease file user => (release_lock env file user w).1
  end.

(** One action; with it the version numbers the apply loop assigned: the
    [version] field of the dequeued operation, read from the operation
    object at the end of the turn. *)
Definition step (env : Collaborators) (a : action) (w : World)
  : World * list Z :=
  match a with
  | Producer c => (run_call env c w, [])
  | Consumer =>
      match operation_queue w with
      | [] => (w, [])
      | operation :: _ =>
          let w' := (process_iteration w).1 in
          (w', [version (deref w' operation)])
      end
  end.

Fixpoint run_schedule (env : Collaborators) (schedule : list action) (w : World)
  : World * list Z :=
  match schedule with
  | [] => (w, [])
  | a :: rest =>
      let (w1, assigned1) := step env a w in
      let (w2, assigned2) := run_schedule env rest w1 in
      (w2, assigned1 ++ assigned2)
  end.

(** The version numbers [first + 1, ..., first + n]. *)
Definition consecutive_from (first : Z) (n : nat) : list Z :=
  (fun i => first + Z.of_nat i) <$> seq 1 n.

(** ** Predicates of the statements *)

(** Two operations that agree on every field but [position]. *)
Definition same_but_position (a b : SyncOperation) : Prop :=
  operation_type a = operation_type b /\ path a = path b /\
  content a = content b /\ user_id a = user_id b /\
  timestamp a = timestamp b /\ version a = version b.

(** Two stores of the same objects that differ at most in positions. *)
Definition same_but_positions (h h' : list SyncOperation) : Prop :=
  length h = length h' /\ forall x, same_but_position (h !!! x) (h' !!! x).

(** A computation keeps a relation between the world before and after. *)
Definition keeps {A} (R : World -> World -> Prop) (m : M A) : Prop :=
  forall w, R w (m w).1.

(** The coordinator's own fields are as before (the object stores, the
    subscriber queues and the resolver may differ). *)
Definition coordinator_unchanged (w w' : World) : Prop :=
  state w' = state w /\ operation_queue w' = operation_queue w /\
  pending_operations w' = pending_operations w /\ metrics w' = metrics w /\
  subscribers w' = subscribers w /\ running w' = running w.

Definition version_unchanged (w w' : World) : Prop :=
  state_version (state w') = state_version (state w).

(** The contents of the operations [l], concatenated in the order of [l]. *)
Definition contents_of (h : list SyncOperation) (l : list ref) : string :=
  join ((fun r => default "" (content (h !!! r))) <$> l).

(** Operations of the store [h] that each have a position and a content. *)
Definition insert_inputs (h : list SyncOperation) (l : list ref) : Prop :=
  forall r, r ∈ l ->
    (r < length h)%nat /\ is_Some (position (h !!! r)) /\
    is_Some (content (h !!! r)).

(** Everything but the operation store and the resolver's error log is as
    before. *)
Definition strategy_frame (w w' : World) : Prop :=
  conflict_heap w' = conflict_heap w /\ queues w' = queues w /\
  state w' = state w /\ operation_queue w' = operation_queue w /\
  subscribers w' = subscribers w /\
  pending_operations w' = pending_operations w /\ metrics w' = metrics w /\
  conflicts w' = conflicts w /\ running w' = running w.

(** Where an insert starts and where its text ends. *)
Definition position_of (h : list SyncOperation) (r : nat) : Z :=
  default 0 (position (h !!! r)).
Definition end_of (h : list SyncOperation) (r : nat) : Z :=
  position_of h r + Z.of_nat (String.length (default "" (content (h !!! r)))).

(** Each insert of [l] starts after the end of the one before it. *)
Fixpoint spaced (h : list SyncOperation) (l : list nat) : Prop :=
  match l with
  | a :: ((b :: _) as tl) => end_of h a < position_of h b /\ spaced h tl
  | _ => True
  end.

(** A user is registered exactly when it has a pending list. *)
Definition registry_consistent (w : World) : Prop :=
  forall u, u ∈ users (state w) <-> is_Some (pending_operations w !! u).

(** The lock table after every lock of [user] is released. *)
Definition locks_without (user : string) (locks : gmap string string)
    (p : string) : option string :=
  if decide (locks !! p = Some user) then None else locks !! p.

(** Every operation of the apply queue and of the windows is an object of
    the store. *)
Definition refs_allocated (w : World) : Prop :=
  (forall r, r ∈ operation_queue w -> (r < length (heap w))%nat) /\
  (forall file recent r,
     recent_operations (state w) !! file = Some recent -> r ∈ recent ->
     (r < length (heap w))%nat).

(** What [refs_allocated] looks at. *)
Definition alloc_view (w : World)
  : list SyncOperation * list nat * gmap string (list nat) :=
  (heap w, operation_queue w, recent_operations (state w)).

(** [if commit_hash:]: a commit was made when the collaborator returned a
    hash that is not the empty string. *)
Definition committed (commit_hash : option string) : bool :=
  match commit_hash with
  | Some h => bool_decide (h <> "")
  | None => false
  end.

(** The observation [f] of the world is as before. *)
Definition same_on {A} (f : World -> A) (w w' : World) : Prop := f w' = f w.

(** The registered users and the users that have a pending list. *)
Definition registry (w : World) : gset string * gset string :=
  (users (state w), dom (pending_operations w)).


(** Every subscriber queue still starts with what it held. *)
Definition queues_extend (w w' : World) : Prop :=
  forall q old, queues w !! q = Some old ->
    exists added, queues w' !! q = Some (old ++ added).

(** The severity of the message for a conflict whose new operation has
    the given kind. *)
Definition severity_of (kind : string) : string :=
  if bool_decide (kind = "delete") then "error"
  else if bool_decide (kind = "modify") || bool_decide (kind = "insert")
  then "warning" else "info".

(** ** Inputs of the examples *)

(** Collaborators that always answer, and a storage collaborator that is
    down. *)
Definition env_up : Collaborators :=
  mkCollaborators 100 (fun _ => true) (fun _ => None) (fun _ _ => Ok 1)
    (fun _ => true) (fun _ _ => Some "c0ffee")
    (fun s => [s]) (fun _ b => (fun l => "+ " +:+ l) <$> b).
Definition env_empty_hash : Collaborators :=
  mkCollaborators 100 (fun _ => true) (fun _ => None) (fun _ _ => Ok 1)
    (fun _ => true) (fun _ _ => Some "")
    (fun s => [s]) (fun _ b => (fun l => "+ " +:+ l) <$> b).
Definition env_db_down : Collaborators :=
  mkCollaborators 100 (fun _ => true)
    (fun _ => Some (CollaboratorError "storage")) (fun _ _ => Ok 1)
    (fun _ => true) (fun _ _ => Some "c0ffee")
    (fun s => [s]) (fun _ b => (fun l => "+ " +:+ l) <$> b).

(** The operations of [test_modify_conflict_detection]. *)
Definition modify_user1 : SyncOperation :=
  mkSyncOperation "modify" "test/file.py" (Some "original content") (Some 0)
    "user1" 50 1.
Definition modify_user2 : SyncOperation :=
  mkSyncOperation "modify" "test/file.py" (Some "modified content") (Some 0)
    "user2" 51 1.
Definition world_two_modifies : World :=
  with_heap [modify_user1; modify_user2] init_world.

(** Two inserts on one file by two users, the first without a position. *)
Definition insert_no_position : SyncOperation :=
  mkSyncOperation "insert" "test/file.py" (Some "a") None "user1" 50 1.
Definition insert_at_3 : SyncOperation :=
  mkSyncOperation "insert" "test/file.py" (Some "b") (Some 3) "user2" 51 (-1).
Definition world_insert_no_position : World :=
  with_heap [insert_no_position; insert_at_3] init_world.

(** A connected user with one pending operation. *)
Definition modify_alice : SyncOperation :=
  mkSyncOperation "modify" "f" (Some "v1") None "alice" 50 (-1).
Definition world_alice_pending : World :=
  with_pending_operations {["alice" := [0%nat]]}
    (with_subscribers {["alice" := ∅]}
       (with_state (with_users {["alice"]} init_state)
          (with_heap [modify_alice] init_world))).

(** Two queues, the first subscribed to ["f"]. *)
Definition world_one_subscriber : World :=
  with_subscribers {["f" := {[0%nat]}]} (with_queues [[]; []] init_world).

(** ["f"] locked by alice. *)
Definition world_locked_by_alice : World :=
  with_state (with_locked_files {["f" := "alice"]} init_state) init_world.

(** The operations of [test_insert_conflict_resolution]; the conflict of
    the test lists [insert2] (identity 1) before [insert1] (identity 0). *)
Definition insert1 : SyncOperation :=
  mkSyncOperation "insert" "test/file.py" (Some "first insert") (Some 10)
    "user1" 50 1.
Definition insert2 : SyncOperation :=
  mkSyncOperation "insert" "test/file.py" (Some "second insert") (Some 10)
    "user2" 50 2.
Definition world_two_inserts : World :=
  with_heap [insert1; insert2] init_world.

(** alice connected, nothing pending; her operation is object 0. *)
Definition world_alice_connected : World :=
  with_pending_operations {["alice" := []]}
    (with_subscribers {["alice" := ∅]}
       (with_state (with_users {["alice"]} init_state)
          (with_heap [modify_alice] init_world))).

(** The operations and the conflict of [test_delete_conflict_resolution]. *)
Definition delete_user2 : SyncOperation :=
  mkSyncOperation "delete" "test/file.py" None None "user2" 51 2.
Definition world_modify_delete : World :=
  with_conflict_heap [mkConflict [1%nat; 0%nat] ["user1"; "user2"] 60 false None]
    (with_heap [modify_user1; delete_user2] init_world).

(** alice connects, submits two operations, and the consumer applies each. *)
Definition schedule_two_pushes : list action :=
  [Producer (CallConnect "alice");
   Producer (CallCreate modify_alice); Producer (CallPush 0%nat); Consumer;
   Producer (CallCreate modify_alice); Producer (CallPush 1%nat); Consumer;
   Consumer].

(** alice's operation queued for apply, one queue subscribed to its path. *)
Definition world_queued : World :=
  with_running true
    (with_operation_queue [0%nat]
       (with_subscribers {["f" := {[0%nat]}]}
          (with_queues [[]] (with_heap [modify_alice] init_world)))).

(** Two operations of alice, and a delete by bob next to a modify by alice. *)
Definition world_alice_twice : World :=
  with_heap [modify_alice; modify_alice] init_world.
Definition delete_bob : SyncOperation :=
  mkSyncOperation "delete" "f" None None "bob" 60 (-1).
Definition world_alice_bob : World :=
  with_heap [modify_alice; delete_bob] init_world.

(** A conflict object without operations. *)
Definition world_empty_conflict : World :=
  with_conflict_heap [mkConflict [] [] 60 false None] init_world.

(** bob holds the lock on ["f"]; alice is connected. *)
Definition world_alice_locked_out : World :=
  with_state (with_locked_files {["f" := "bob"]} (state world_alice_connected))
    world_alice_connected.

(** [user2] is connected and pushes [insert2] (object 1) while the window of
    the path holds [insert1] of [user1]. *)
Definition world_insert_conflict : World :=
  with_pending_operations {["user2" := []]}
    (with_state
       (with_recent_operations {["test/file.py" := [0%nat]]}
          (with_users {["user2"]} init_state))
       world_two_inserts).

(** alice pushes her modify (object 0) while the window of ["f"] holds
    bob's delete (object 1). *)
Definition world_modify_after_delete : World :=
  with_pending_operations {["alice" := []]}
    (with_state
       (with_recent_operations {["f" := [1%nat]]}
          (with_users {["alice"]} init_state))
       world_alice_bob).

(** alice is connected and holds the lock on ["f"]; bob holds ["g"]. *)
Definition world_alice_holds_lock : World :=
  with_state
    (with_locked_files {["f" := "alice"; "g" := "bob"]}
       (state world_alice_connected))
    world_alice_connected.

(** * Properties *)

Ltac unfold_monad :=
  unfold bind, ret, raise, get_world, modify_world, lift_outcome, try_except,
         alloc_operation, alloc_conflict in *.

(** ** Conflict detector *)

Lemma operations_conflict_modify_ok (op1 op2 : SyncOperation) :
  operation_type op1 = "modify" ->
  exists b, _operations_conflict op1 op2 = Ok b.
Proof.
  intros Hm. unfold _operations_conflict. rewrite Hm.
  repeat case_bool_decide; simpl; eauto; try discriminate.
Qed.

Lemma operations_conflict_modify_modify (op1 op2 : SyncOperation) :
  operation_type op1 = "modify" ->
  operation_type op2 = "modify" ->
  path op1 = path op2 ->
  user_id op1 <> user_id op2 ->
  _operations_conflict op1 op2 = Ok true.
Proof.
  intros H1 H2 Hp Hu. unfold _operations_conflict.
  rewrite H1, H2.
  repeat case_bool_decide; simpl; try reflexivity; congruence.
Qed.

Lemma collect_conflicts_modify (h : list SyncOperation) (op : SyncOperation)
    (recents : list ref) :
  operation_type op = "modify" ->
  exists cs, collect_conflicts h op recents = Ok cs /\
    forall r, r ∈ recents -> _operations_conflict op (h !!! r) = Ok true ->
              r ∈ cs.
Proof.
  intros Hm. induction recents as [|x rest IH]; simpl.
  - exists []. split; [reflexivity|]. intros r Hr. inversion Hr.
  - destruct (operations_conflict_modify_ok op (h !!! x) Hm) as [b Hb].
    rewrite Hb. destruct IH as (cs & -> & Hcs).
    eexists. split; [reflexivity|].
    intros r Hr Hc. apply elem_of_cons in Hr as [->|Hr].
    + rewrite Hb in Hc. injection Hc as ->. apply elem_of_cons. by left.
    + destruct b; [apply elem_of_cons; right|]; by apply Hcs.
Qed.

Lemma check_conflict_found (env : Collaborators) (w : World) (operation : ref)
    (recents : list ref) (x : ref) (cs : list ref) :
  collect_conflicts (heap w) (deref w operation) recents = Ok (x :: cs) ->
  check_conflict env operation recents w =
    (with_conflicts
       (<[path (deref w operation) :=
            default [] (conflicts w !! path (deref w operation))
              ++ [length (conflict_heap w)]]> (conflicts w))
       (with_conflict_heap
          (conflict_heap w ++
             [mkConflict (operation :: x :: cs)
                (distinct_users (heap w) ((x :: cs) ++ [operation]))
                (now env) false None]) w),
     Ok (Some (length (conflict_heap w)))).
Proof.
  intros H. unfold check_conflict, check_conflict_body, register_conflict.
  unfold_monad. rewrite H. reflexivity.
Qed.

Lemma check_conflict_none (env : Collaborators) (w : World) (operation : ref)
    (recents : list ref) :
  collect_conflicts (heap w) (deref w operation) recents = Ok [] ->
  check_conflict env operation recents w = (w, Ok None).
Proof.
  intros H. unfold check_conflict, check_conflict_body.
  unfold_monad. rewrite H. reflexivity.
Qed.

Lemma check_conflict_raised (env : Collaborators) (w : World) (operation : ref)
    (recents : list ref) (e : exn) :
  collect_conflicts (heap w) (deref w operation) recents = Raise e ->
  check_conflict env operation recents w =
    (with_resolver_metrics
       (resolver_metrics w ++ [RecordedError "conflict_check_error" e]) w,
     Ok None).
Proof.
  intros H. unfold check_conflict, check_conflict_body, resolver_record_error.
  unfold_monad. rewrite H. reflexivity.
Qed.

(** C1: a new [modify] and a recent [modify] on the same path by different
    users make [check_conflict] return a conflict whose operations contain
    both (the new operation first). *)
Theorem C1_modify_modify_conflict (env : Collaborators) (w : World)
    (operation recent : ref) (recent_operations : list ref) :
  recent ∈ recent_operations ->
  operation_type (deref w operation) = "modify" ->
  operation_type (deref w recent) = "modify" ->
  path (deref w operation) = path (deref w recent) ->
  user_id (deref w operation) <> user_id (deref w recent) ->
  exists c,
    (check_conflict env operation recent_operations w).2 = Ok (Some c) /\
    let conflict :=
      conflict_heap (check_conflict env operation recent_operations w).1 !!! c in
    head (conflict_operations conflict) = Some operation /\
    operation ∈ conflict_operations conflict /\
    recent ∈ conflict_operations conflict.
Proof.
  intros Hin H1 H2 Hp Hu.
  destruct (collect_conflicts_modify (heap w) (deref w operation)
              recent_operations H1) as (cs & Hcs & Hmem).
  assert (Hr : recent ∈ cs).
  { apply Hmem; [done|]. by apply operations_conflict_modify_modify. }
  destruct cs as [|x cs]; [inversion Hr|].
  rewrite (check_conflict_found env w operation recent_operations x cs Hcs).
  exists (length (conflict_heap w)). simpl. split; [reflexivity|].
  rewrite list_lookup_total_middle by reflexivity. simpl.
  split; [reflexivity|]. split.
  - apply elem_of_cons. by left.
  - apply elem_of_cons. by right.
Qed.

Lemma C1_modify_modify_conflict_witness :
  exists c,
    (check_conflict env_up 1%nat [0%nat] world_two_modifies).2 = Ok (Some c) /\
    let conflict :=
      conflict_heap (check_conflict env_up 1%nat [0%nat] world_two_modifies).1
        !!! c in
    head (conflict_operations conflict) = Some 1%nat /\
    1%nat ∈ conflict_operations conflict /\
    0%nat ∈ conflict_operations conflict.
Proof.
  apply (C1_modify_modify_conflict env_up world_two_modifies 1%nat 0%nat).
  - set_solver.
  - reflexivity.
  - reflexivity.
  - reflexivity.
  - vm_compute. discriminate.
Defined.

(** The detection tests of the repository. *)
Example test_delete_conflict_detection :
  exists w',
    check_conflict env_up 1%nat [0%nat] world_modify_delete = (w', Ok (Some 1%nat)) /\
    conflict_operations (conflict_heap w' !!! 1%nat) = [1%nat; 0%nat].
Proof. eexists. split; vm_compute; reflexivity. Qed.

Example test_insert_conflict_detection :
  exists w',
    check_conflict env_up 1%nat [0%nat] world_two_inserts = (w', Ok (Some 0%nat)) /\
    conflict_operations (conflict_heap w' !!! 0%nat) = [1%nat; 0%nat].
Proof. eexists. split; vm_compute; reflexivity. Qed.

(** C10: [check_conflict] never raises; when a pairwise test raises, the call
    records the error and returns [None], and [push_operation]'s intake then
    carries the operation on as if there were no conflict. *)
Theorem C10_check_conflict_never_raises (env : Collaborators) (w : World)
    (operation : ref) (recent_ops : list ref) :
  (exists r, (check_conflict env operation recent_ops w).2 = Ok r) /\
  (is_raise (collect_conflicts (heap w) (deref w operation) recent_ops)
     = true ->
   (check_conflict env operation recent_ops w).2 = Ok None /\
   (_validate_operation env w (deref w operation) = true ->
    _can_modify_file w (path (deref w operation)) (user_id (deref w operation))
      = true ->
    recent_ops =
      default [] (recent_operations (state w) !! path (deref w operation)) ->
    (intake env operation w).2 = Ok (Some operation))).
Proof.
  destruct (collect_conflicts (heap w) (deref w operation) recent_ops)
    as [[|x cs]|e] eqn:Hc.
  - rewrite (check_conflict_none env w operation recent_ops Hc).
    split; [eauto|]. simpl. discriminate.
  - rewrite (check_conflict_found env w operation recent_ops x cs Hc).
    split; [eauto|]. simpl. discriminate.
  - rewrite (check_conflict_raised env w operation recent_ops e Hc).
    split; [eauto|]. intros _. split; [reflexivity|].
    intros Hv Hl Hrec. unfold intake. unfold_monad.
    rewrite Hv, Hl. simpl. rewrite <- Hrec.
    rewrite (check_conflict_raised env w operation recent_ops e Hc).
    reflexivity.
Qed.

Lemma C10_check_conflict_never_raises_witness :
  (check_conflict env_up 1%nat [0%nat] world_insert_no_position).2 = Ok None.
Proof.
  apply (C10_check_conflict_never_raises env_up world_insert_no_position
           1%nat [0%nat]).
  vm_compute. reflexivity.
Defined.

(** ** Fan-out: only the subscriber queues change *)

Lemma put_each_run (x : item) (qs : list qref) (w : World) :
  exists Q, put_each x qs w = (with_queues Q w, Ok tt).
Proof.
  revert w. induction qs as [|q rest IH]; intros w; simpl.
  - exists (queues w). by destruct w.
  - unfold queue_put. unfold_monad.
    destruct (IH (with_queues (<[q:=queues w !!! q ++ [x]]> (queues w)) w))
      as [Q ->].
    by exists Q.
Qed.

Lemma notify_run (key : string) (x : item) (w : World) :
  exists Q, notify key x w = (with_queues Q w, Ok tt).
Proof.
  unfold notify. unfold_monad. destruct (subscribers w !! key).
  - apply put_each_run.
  - exists (queues w). by destruct w.
Qed.

Lemma notify_each_run (keys : list string) (x : item) (w : World) :
  exists Q, notify_each keys x w = (with_queues Q w, Ok tt).
Proof.
  revert w. induction keys as [|k rest IH]; intros w; simpl.
  - exists (queues w). by destruct w.
  - unfold_monad. destruct (notify_run k x w) as [Q ->].
    destruct (IH (with_queues Q w)) as [Q' ->]. by exists Q'.
Qed.

(** ** Lock table *)

Lemma acquire_lock_free (env : Collaborators) (w : World) (file user : string) :
  locked_files (state w) !! file = None ->
  exists Q,
    acquire_lock env file user w =
      (with_queues Q
         (with_state (with_locked_files (<[file := user]> (locked_files (state w)))
                        (state w)) w),
       Ok true).
Proof.
  intros H. unfold acquire_lock, _broadcast_lock_event. unfold_monad.
  rewrite H.
  match goal with |- context [notify ?k ?x ?w0] =>
    destruct (notify_run k x w0) as [Q ->] end.
  by exists Q.
Qed.

Lemma acquire_lock_held (env : Collaborators) (w : World) (file user holder : string) :
  locked_files (state w) !! file = Some holder ->
  acquire_lock env file user w = (w, Ok false).
Proof.
  intros H. unfold acquire_lock. unfold_monad. by rewrite H.
Qed.

Lemma release_lock_holder (env : Collaborators) (w : World) (file user : string) :
  locked_files (state w) !! file = Some user ->
  exists Q,
    release_lock env file user w =
      (with_queues Q
         (with_state (with_locked_files (delete file (locked_files (state w)))
                        (state w)) w),
       Ok true).
Proof.
  intros H. unfold release_lock, _broadcast_lock_event. unfold_monad.
  rewrite bool_decide_eq_false_2 by (intros Hn; by apply Hn).
  match goal with |- context [notify ?k ?x ?w0] =>
    destruct (notify_run k x w0) as [Q ->] end.
  by exists Q.
Qed.

Lemma release_lock_other (env : Collaborators) (w : World) (file user : string) :
  locked_files (state w) !! file <> Some user ->
  release_lock env file user w = (w, Ok false).
Proof.
  intros H. unfold release_lock. unfold_monad.
  by rewrite bool_decide_eq_true_2.
Qed.

(** C5: [acquire_lock] succeeds, and records the holder, exactly when the
    path has no holder; [release_lock] succeeds, and removes the entry,
    exactly when the caller is the holder, and otherwise changes nothing.
    An acquire on a held path (also by its holder) fails and leaves the
    holder in place; after a successful release any user's acquire
    succeeds. *)
Theorem C5_lock_table (env : Collaborators) (w : World) (file user : string) :
  let a := acquire_lock env file user w in
  let r := release_lock env file user w in
  a.2 = Ok (bool_decide (locked_files (state w) !! file = None)) /\
  (locked_files (state w) !! file = None ->
   locked_files (state a.1) = <[file := user]> (locked_files (state w))) /\
  (forall holder, locked_files (state w) !! file = Some holder ->
   a.1 = w /\ locked_files (state a.1) !! file = Some holder) /\
  (forall other, (acquire_lock env file other a.1).2 = Ok false) /\
  r.2 = Ok (bool_decide (locked_files (state w) !! file = Some user)) /\
  (locked_files (state w) !! file = Some user ->
   locked_files (state r.1) = delete file (locked_files (state w)) /\
   forall other, (acquire_lock env file other r.1).2 = Ok true) /\
  (locked_files (state w) !! file <> Some user -> r.1 = w).
Proof.
  intros a r. subst a r.
  destruct (locked_files (state w) !! file) as [holder|] eqn:Hl.
  - rewrite (acquire_lock_held env w file user holder Hl). simpl.
    split; [reflexivity|].
    split; [discriminate|].
    split; [intros h Hh; by injection Hh as <-|].
    split; [intros other; by rewrite (acquire_lock_held env w file other holder Hl)|].
    destruct (decide (holder = user)) as [->|Hne].
    + destruct (release_lock_holder env w file user Hl) as [Q ->]. simpl.
      split; [by rewrite bool_decide_eq_true_2|].
      split; [|congruence].
      intros _. split; [reflexivity|]. intros other.
      match goal with |- context [acquire_lock env file other ?w0] =>
        destruct (acquire_lock_free env w0 file other) as [Q' ->] end.
      * simpl. apply lookup_delete_eq.
      * reflexivity.
    + rewrite release_lock_other by (rewrite Hl; congruence). simpl.
      split; [rewrite bool_decide_eq_false_2; [done|congruence]|].
      split; [congruence|]. done.
  - destruct (acquire_lock_free env w file user Hl) as [Q ->]. simpl.
    split; [reflexivity|].
    split; [done|].
    split; [discriminate|].
    split.
    { intros other.
      match goal with |- context [acquire_lock env file other ?w0] =>
        rewrite (acquire_lock_held env w0 file other user) end.
      - reflexivity.
      - simpl. apply lookup_insert_eq. }
    rewrite release_lock_other by (rewrite Hl; discriminate). simpl.
    split; [reflexivity|].
    split; [discriminate|]. done.
Qed.

Lemma C5_lock_table_witness :
  (release_lock env_up "f" "alice" world_locked_by_alice).2 = Ok true /\
  (acquire_lock env_up "f" "bob"
     (release_lock env_up "f" "alice" world_locked_by_alice).1).2 = Ok true /\
  (acquire_lock env_up "f" "bob" world_locked_by_alice).2 = Ok false.
Proof.
  pose proof (C5_lock_table env_up world_locked_by_alice "f" "alice")
    as (_ & _ & _ & _ & Hr & Hh & _).
  pose proof (C5_lock_table env_up world_locked_by_alice "f" "bob")
    as (Ha & _).
  split; [|split].
  - rewrite Hr. reflexivity.
  - apply Hh. reflexivity.
  - rewrite Ha. reflexivity.
Defined.

(** ** Session registry and subscriptions *)

Lemma connect_user_run (env : Collaborators) (w : World) (user : string) :
  exists Q,
    connect_user env user w =
      (with_queues Q
         (with_pending_operations (<[user := []]> (pending_operations w))
            (with_subscribers (<[user := ∅]> (subscribers w))
               (with_state (with_users ({[user]} ∪ users (state w)) (state w))
                  w))),
       Ok tt).
Proof.
  unfold connect_user, _broadcast_user_event. unfold_monad.
  match goal with |- context [notify_each ?k ?x ?w0] =>
    destruct (notify_each_run k x w0) as [Q ->] end.
  by exists Q.
Qed.

(** C8 (as the code has it): [connect_user] has no already-connected check.
    For every user id, connected or not, it returns normally, the id is in
    the registry afterwards, and the id's subscriber set and pending list
    are replaced by empty ones. *)
Theorem C8_connect_user_always_registers (env : Collaborators) (w : World)
    (user : string) :
  let r := connect_user env user w in
  r.2 = Ok tt /\
  users (state r.1) = {[user]} ∪ users (state w) /\
  subscribers r.1 = <[user := ∅]> (subscribers w) /\
  pending_operations r.1 = <[user := []]> (pending_operations w).
Proof.
  intros r. subst r. destruct (connect_user_run env w user) as [Q ->].
  simpl. auto.
Qed.

(** C8, counterexample: alice is connected with one pending operation;
    connecting her again does not fail and drops the pending operation. *)
Lemma C8_connect_user_counterexample :
  "alice" ∈ users (state world_alice_pending) /\
  pending_operations world_alice_pending !! "alice" = Some [0%nat] /\
  (connect_user env_up "alice" world_alice_pending).2 = Ok tt /\
  pending_operations (connect_user env_up "alice" world_alice_pending).1
    !! "alice" = Some [].
Proof.
  split; [simpl; set_solver|].
  split; [reflexivity|].
  destruct (connect_user_run env_up world_alice_pending "alice") as [Q ->].
  simpl. split; [reflexivity|]. apply lookup_insert_eq.
Qed.

(** C9 (as the code has it): [unsubscribe] removes the channel when it is in
    the path's subscriber set, does nothing when the path has no subscriber
    set, and raises [KeyError], changing nothing, when the path has a
    subscriber set without the channel. *)
Theorem C9_unsubscribe (w : World) (file : string) (queue : qref) :
  let r := unsubscribe file queue w in
  (forall qs, subscribers w !! file = Some qs -> queue ∈ qs ->
     r = (with_subscribers (<[file := qs ∖ {[queue]}]> (subscribers w)) w,
          Ok tt)) /\
  (subscribers w !! file = None -> r = (w, Ok tt)) /\
  (forall qs, subscribers w !! file = Some qs -> queue ∉ qs ->
     r = (w, Raise KeyError)).
Proof.
  intros r. subst r. unfold unsubscribe. unfold_monad.
  split; [|split].
  - intros qs -> Hin. by rewrite bool_decide_eq_true_2.
  - by intros ->.
  - intros qs -> Hin. by rewrite bool_decide_eq_false_2.
Qed.

Lemma C9_unsubscribe_witness :
  unsubscribe "f" 0%nat world_one_subscriber =
    (with_subscribers (<["f" := {[0%nat]} ∖ {[0%nat]}]>
                         (subscribers world_one_subscriber))
       world_one_subscriber, Ok tt).
Proof.
  apply (C9_unsubscribe world_one_subscriber "f" 0%nat).
  - reflexivity.
  - set_solver.
Defined.

(** C9, counterexample: queue 1 is not subscribed to ["f"]; unsubscribing it
    raises instead of returning. *)
Lemma C9_unsubscribe_counterexample :
  subscribers world_one_subscriber !! "f" = Some {[0%nat]} /\
  (1%nat ∉ ({[0%nat]} : gset qref)) /\
  (unsubscribe "f" 1%nat world_one_subscriber).2 = Raise KeyError.
Proof.
  split; [reflexivity|]. split; [set_solver|].
  vm_compute. reflexivity.
Qed.

(** ** Resolution strategies and their inputs *)

Lemma same_but_position_refl (a : SyncOperation) : same_but_position a a.
Proof. by repeat split. Qed.

Lemma same_but_position_trans (a b c : SyncOperation) :
  same_but_position a b -> same_but_position b c -> same_but_position a c.
Proof.
  unfold same_but_position. intros (?&?&?&?&?&?) (?&?&?&?&?&?).
  repeat split; congruence.
Qed.

Lemma same_but_positions_refl (h : list SyncOperation) : same_but_positions h h.
Proof. split; [done|]. intros x. apply same_but_position_refl. Qed.

Lemma same_but_positions_trans (h1 h2 h3 : list SyncOperation) :
  same_but_positions h1 h2 -> same_but_positions h2 h3 ->
  same_but_positions h1 h3.
Proof.
  intros [L1 H1] [L2 H2]. split; [congruence|].
  intros x. eapply same_but_position_trans; eauto.
Qed.

Lemma same_but_positions_assign (h : list SyncOperation) (op : ref) (p : option Z) :
  same_but_positions h (<[op := set_position p (h !!! op)]> h).
Proof.
  split; [by rewrite length_insert|].
  intros x. destruct (decide (op = x)) as [->|Hne].
  - destruct (decide (x < length h)%nat) as [Hlt|Hge].
    + rewrite list_lookup_total_insert_eq by done. by repeat split.
    + rewrite list_insert_ge by lia. apply same_but_position_refl.
  - rewrite list_lookup_total_insert_ne by done. apply same_but_position_refl.
Qed.

Lemma insert_loop_frame (sorted_ops : list ref) (current_pos : option Z)
    (merged : string) (w : World) :
  exists H, (insert_loop sorted_ops current_pos merged w).1 = with_heap H w /\
            same_but_positions (heap w) H.
Proof.
  revert current_pos merged w.
  induction sorted_ops as [|op rest IH]; intros current_pos merged w; simpl.
  - exists (heap w). split; [by destruct w|apply same_but_positions_refl].
  - unfold_monad. unfold assign_position. unfold_monad.
    destruct (position (deref w op)) as [p|];
      [destruct current_pos as [c|]|];
      try (exists (heap w); split;
           [by destruct w|apply same_but_positions_refl]).
    destruct (p <=? c).
    + destruct (content (deref w op)) as [s|].
      * match goal with |- context [insert_loop rest ?c0 ?m0 ?w0] =>
          destruct (IH c0 m0 w0) as (H & -> & HH) end.
        exists H. split; [reflexivity|].
        eapply same_but_positions_trans; [|exact HH].
        apply same_but_positions_assign.
      * eexists. split; [reflexivity|]. apply same_but_positions_assign.
    + destruct (content (deref w op)) as [s|].
      * match goal with |- context [insert_loop rest ?c0 ?m0 ?w0] =>
          destruct (IH c0 m0 w0) as (H & -> & HH) end.
        exists H. split; [by destruct w|exact HH].
      * exists (heap w). split; [by destruct w|apply same_but_positions_refl].
Qed.

Lemma resolve_insert_frame (env : Collaborators) (operations : list ref)
    (w : World) :
  let r := _resolve_insert_conflict env operations w in
  exists H, same_but_positions (heap w) H /\
    ((heap r.1 = H /\ r.2 = Ok None) \/
     (exists o, heap r.1 = H ++ [o] /\ r.2 = Ok (Some (length (heap w))))).
Proof.
  simpl. unfold _resolve_insert_conflict, _resolve_insert_conflict_body,
    resolver_record_error.
  unfold_monad.
  destruct (sorted_by_position (heap w) operations) as [sorted_ops|e].
  - destruct sorted_ops as [|first sorted_rest].
    { exists (heap w). split; [apply same_but_positions_refl|]. by left. }
    destruct operations as [|op0 ops_rest].
    { exists (heap w). split; [apply same_but_positions_refl|]. by left. }
    pose proof (insert_loop_frame (first :: sorted_rest)
                  (position (deref w first)) "" w) as (H & HH & Hrel).
    destruct (insert_loop (first :: sorted_rest) (position (deref w first)) "" w)
      as [w1 [merged|e]]; simpl in HH; subst w1; simpl.
    + exists H. split; [done|]. right. eexists. split; [reflexivity|].
      destruct Hrel as [-> _]. reflexivity.
    + exists H. split; [done|]. by left.
  - exists (heap w). split; [apply same_but_positions_refl|]. by left.
Qed.

Lemma resolve_modify_frame (env : Collaborators) (operations : list ref)
    (w : World) :
  let r := _resolve_modify_conflict env operations w in
  (heap r.1 = heap w /\ r.2 = Ok None) \/
  (exists o, heap r.1 = heap w ++ [o] /\ r.2 = Ok (Some (length (heap w)))).
Proof.
  simpl. unfold _resolve_modify_conflict, _resolve_modify_conflict_body,
    resolver_record_error.
  unfold_monad.
  destruct (sort_by _ operations) as [|first rest]; simpl; [by left|].
  destruct (_merge_changes env _ _) as [merged|]; simpl; [|by left].
  case_bool_decide; simpl; [by left|].
  destruct operations as [|op0 ops_rest]; simpl; [by left|].
  right. eexists. split; reflexivity.
Qed.

Lemma resolve_delete_frame (operations : list ref) (w : World) :
  let r := _resolve_delete_conflict operations w in
  r.1 = w /\
  forall res, r.2 = Ok (Some res) ->
    res ∈ operations /\ operation_type (deref w res) = "delete".
Proof.
  simpl. unfold _resolve_delete_conflict. unfold_monad.
  destruct (List.find _ operations) as [d|] eqn:Hf; simpl.
  - split; [done|]. intros res [= <-].
    apply find_some in Hf as [Hin Hd].
    split; [by apply list_elem_of_In|].
    by apply bool_decide_eq_true_1 in Hd.
  - split; [done|]. discriminate.
Qed.

(** [test_delete_conflict_resolution]: the delete wins, and the conflict is
    marked resolved. *)
Example test_delete_conflict_resolution :
  exists w',
    resolve_conflict env_up 0%nat world_modify_delete = (w', Ok (Some 1%nat)) /\
    operation_type (deref w' 1%nat) = "delete" /\
    resolved (conflict_heap w' !!! 0%nat) = true.
Proof. eexists. repeat split; vm_compute; reflexivity. Qed.

(** C7 (as the code has it): the modify and the delete strategy leave every
    operation object as it was; the insert strategy may assign to the
    [position] of its inputs and leaves every other field of every operation
    as it was.  The operation synthesized by the modify or the insert
    strategy is a new object, distinct from every existing one; the delete
    strategy returns one of its inputs. *)
Theorem C7_strategies_and_inputs (env : Collaborators) (w : World)
    (operations : list ref) (x : ref) :
  (x < length (heap w))%nat ->
  (let r := _resolve_modify_conflict env operations w in
   heap r.1 !!! x = heap w !!! x /\
   forall res, r.2 = Ok (Some res) -> res <> x) /\
  (let r := _resolve_delete_conflict operations w in
   heap r.1 !!! x = heap w !!! x /\
   forall res, r.2 = Ok (Some res) -> res ∈ operations) /\
  (let r := _resolve_insert_conflict env operations w in
   same_but_position (heap w !!! x) (heap r.1 !!! x) /\
   forall res, r.2 = Ok (Some res) -> res <> x).
Proof.
  intros Hx. cbv zeta. split; [|split].
  - destruct (resolve_modify_frame env operations w) as [[-> ->]|(o & -> & ->)].
    + split; [done|discriminate].
    + split; [by rewrite lookup_total_app_l|]. intros res [= <-]. lia.
  - destruct (resolve_delete_frame operations w) as [-> Hres].
    split; [done|]. intros res Hr. by apply Hres.
  - destruct (resolve_insert_frame env operations w)
      as (H & [Hlen Hrel] & [[-> ->]|(o & -> & ->)]).
    + split; [apply Hrel|discriminate].
    + split.
      * rewrite lookup_total_app_l by lia. apply Hrel.
      * intros res [= <-]. lia.
Qed.

Lemma C7_strategies_and_inputs_witness :
  same_but_position (heap world_two_inserts !!! 0%nat)
    (heap (_resolve_insert_conflict env_up [1%nat; 0%nat] world_two_inserts).1
       !!! 0%nat).
Proof.
  apply (C7_strategies_and_inputs env_up world_two_inserts [1%nat; 0%nat] 0%nat).
  simpl. lia.
Defined.

(** C7, counterexample: the insert strategy, run on the two inserts at
    position 10, assigns to the positions of both inputs. *)
Lemma C7_strategies_and_inputs_counterexample :
  let w' := (_resolve_insert_conflict env_up [1%nat; 0%nat] world_two_inserts).1 in
  position (heap world_two_inserts !!! 0%nat) = Some 10 /\
  position (heap world_two_inserts !!! 1%nat) = Some 10 /\
  position (heap w' !!! 0%nat) = Some 25 /\
  position (heap w' !!! 1%nat) = Some 11.
Proof. vm_compute. auto. Qed.

(** C6, at the input of [test_insert_conflict_resolution] (two inserts at
    position 10): the strategy returns a new insert by ["system"] whose
    content is the concatenation of both contents and whose position is 11,
    one more than the lowest input position. *)
Theorem C6_insert_resolution_position :
  let r := _resolve_insert_conflict env_up [1%nat; 0%nat] world_two_inserts in
  position (heap world_two_inserts !!! 0%nat) = Some 10 /\
  position (heap world_two_inserts !!! 1%nat) = Some 10 /\
  r.2 = Ok (Some 2%nat) /\
  heap r.1 !! 2%nat =
    Some (mkSyncOperation "insert" "test/file.py"
            (Some "second insertfirst insert") (Some 11) "system" 100 (-1)).
Proof. vm_compute. auto. Qed.

(** ** What a computation leaves alone *)

Section Keeps.
Context (R : World -> World -> Prop) `{!PreOrder R}.

Lemma keeps_ret {A} (a : A) : keeps R (ret a).
Proof. intros w. simpl. reflexivity. Qed.

Lemma keeps_raise {A} (e : exn) : keeps R (raise (A:=A) e).
Proof. intros w. simpl. reflexivity. Qed.

Lemma keeps_get_world : keeps R get_world.
Proof. intros w. simpl. reflexivity. Qed.

Lemma keeps_lift_outcome {A} (o : outcome A) : keeps R (lift_outcome o).
Proof. intros w. simpl. reflexivity. Qed.

Lemma keeps_bind {A B} (m : M A) (k : A -> M B) :
  keeps R m -> (forall a, keeps R (k a)) -> keeps R (bind m k).
Proof.
  intros Hm Hk w. unfold bind. specialize (Hm w).
  destruct (m w) as [w1 [a|e]]; simpl in *; [|done].
  etransitivity; [exact Hm|apply Hk].
Qed.

Lemma keeps_try_except {A} (m : M A) (h : exn -> M A) :
  keeps R m -> (forall e, keeps R (h e)) -> keeps R (try_except m h).
Proof.
  intros Hm Hh w. unfold try_except. specialize (Hm w).
  destruct (m w) as [w1 [a|e]]; simpl in *; [done|].
  etransitivity; [exact Hm|apply Hh].
Qed.

Lemma keeps_modify_world (f : World -> World) :
  (forall w, R w (f w)) -> keeps R (modify_world f).
Proof. intros Hf w. apply Hf. Qed.

End Keeps.

#[global] Instance coordinator_unchanged_preorder : PreOrder coordinator_unchanged.
Proof.
  split.
  - intros w. by repeat split.
  - intros w1 w2 w3 (?&?&?&?&?&?) (?&?&?&?&?&?). repeat split; congruence.
Qed.

#[global] Instance version_unchanged_preorder : PreOrder version_unchanged.
Proof.
  split.
  - intros w. reflexivity.
  - intros w1 w2 w3 H1 H2. unfold version_unchanged in *. congruence.
Qed.

Lemma keeps_version {A} (m : M A) :
  keeps coordinator_unchanged m -> keeps version_unchanged m.
Proof. intros H w. destruct (H w) as [Hs _]. unfold version_unchanged. by rewrite Hs. Qed.

(** One step of a proof that a computation keeps a relation. *)
Ltac keeps_step :=
  lazymatch goal with
  | |- keeps _ (bind _ _) => apply keeps_bind; [tc_solve| |intros ?]
  | |- keeps _ (ret _) => apply keeps_ret; tc_solve
  | |- keeps _ (raise _) => apply keeps_raise; tc_solve
  | |- keeps _ get_world => apply keeps_get_world; tc_solve
  | |- keeps _ (lift_outcome _) => apply keeps_lift_outcome; tc_solve
  | |- keeps _ (try_except _ _) => apply keeps_try_except; [tc_solve| |intros ?]
  | |- keeps _ (modify_world _) =>
      apply keeps_modify_world; intros ?; by repeat split
  | |- keeps _ (match ?x with _ => _ end) => destruct x
  | |- keeps _ (let _ := _ in _) => cbv zeta
  end.
Ltac keeps_auto := repeat keeps_step.

Lemma keeps_put_each (x : item) (qs : list qref) :
  keeps coordinator_unchanged (put_each x qs).
Proof. intros w. destruct (put_each_run x qs w) as [Q ->]. by repeat split. Qed.

Lemma keeps_notify (key : string) (x : item) :
  keeps coordinator_unchanged (notify key x).
Proof. intros w. destruct (notify_run key x w) as [Q ->]. by repeat split. Qed.

Lemma keeps_notify_each (keys : list string) (x : item) :
  keeps coordinator_unchanged (notify_each keys x).
Proof. intros w. destruct (notify_each_run keys x w) as [Q ->]. by repeat split. Qed.

Lemma keeps_check_conflict (env : Collaborators) (operation : ref)
    (recents : list ref) :
  keeps coordinator_unchanged (check_conflict env operation recents).
Proof.
  unfold check_conflict, check_conflict_body, register_conflict,
    resolver_record_error, alloc_conflict.
  keeps_auto.
  intros w. by repeat split.
Qed.

Create HintDb keeps.

Lemma keeps_alloc_operation (o : SyncOperation) :
  keeps coordinator_unchanged (alloc_operation o).
Proof. intros w. by repeat split. Qed.

Lemma keeps_insert_loop (sorted_ops : list ref) (current_pos : option Z)
    (merged : string) :
  keeps coordinator_unchanged (insert_loop sorted_ops current_pos merged).
Proof.
  intros w.
  destruct (insert_loop_frame sorted_ops current_pos merged w) as (H & -> & _).
  by repeat split.
Qed.

#[global] Hint Resolve keeps_put_each keeps_notify keeps_notify_each
  keeps_check_conflict keeps_alloc_operation keeps_insert_loop : keeps.

Ltac keeps_more := repeat first [keeps_step | solve [auto with keeps]].

Lemma keeps_resolve_modify (env : Collaborators) (operations : list ref) :
  keeps coordinator_unchanged (_resolve_modify_conflict env operations).
Proof.
  unfold _resolve_modify_conflict, _resolve_modify_conflict_body,
    resolver_record_error.
  keeps_more.
Qed.

Lemma keeps_resolve_delete (operations : list ref) :
  keeps coordinator_unchanged (_resolve_delete_conflict operations).
Proof. unfold _resolve_delete_conflict. keeps_more. Qed.

Lemma keeps_resolve_insert (env : Collaborators) (operations : list ref) :
  keeps coordinator_unchanged (_resolve_insert_conflict env operations).
Proof.
  unfold _resolve_insert_conflict, _resolve_insert_conflict_body,
    resolver_record_error.
  keeps_more.
Qed.

Lemma keeps_strategy (env : Collaborators) (kind : string)
    (strategy : list ref -> M (option ref)) (operations : list ref) :
  resolution_strategies env kind = Some strategy ->
  keeps coordinator_unchanged (strategy operations).
Proof.
  unfold resolution_strategies. intros H.
  repeat case_bool_decide; simplify_eq;
    auto using keeps_resolve_modify, keeps_resolve_delete, keeps_resolve_insert.
Qed.

Lemma keeps_resolve_conflict (env : Collaborators) (c : cref) :
  keeps coordinator_unchanged (resolve_conflict env c).
Proof.
  unfold resolve_conflict, resolve_conflict_body, mark_resolved,
    resolver_record_error.
  keeps_step; [|keeps_more].
  keeps_step; [keeps_more|]. cbv zeta.
  destruct (conflict_heap a !!! c) as [[|primary [|second rest]] ? ? ? ?];
    simpl; [keeps_more..|].
  destruct (resolution_strategies env _) as [strategy|] eqn:Hs; [|keeps_more].
  keeps_step; [by eapply keeps_strategy|]. keeps_more.
Qed.

Lemma keeps_broadcast_conflict (env : Collaborators) (c : cref) :
  keeps coordinator_unchanged (_broadcast_conflict env c).
Proof. unfold _broadcast_conflict. keeps_more. Qed.

#[global] Hint Resolve keeps_resolve_conflict keeps_broadcast_conflict : keeps.

Lemma keeps_intake (env : Collaborators) (operation : ref) :
  keeps coordinator_unchanged (intake env operation).
Proof. unfold intake. keeps_more. Qed.

(** ** What a subscriber queue receives *)

Lemma queue_put_lookup_eq (x : item) (q : qref) (w : World) (old : list item) :
  queues w !! q = Some old ->
  queues (queue_put x q w).1 !! q = Some (old ++ [x]).
Proof.
  intros H. unfold queue_put. unfold_monad. simpl.
  rewrite (list_lookup_total_correct _ _ _ H).
  apply list_lookup_insert_eq. by eapply lookup_lt_Some.
Qed.

Lemma queue_put_lookup_ne (x : item) (q q' : qref) (w : World) :
  q <> q' -> queues (queue_put x q w).1 !! q' = queues w !! q'.
Proof.
  intros H. unfold queue_put. unfold_monad. simpl.
  by apply list_lookup_insert_ne.
Qed.

Lemma put_each_lookup_notin (x : item) (qs : list qref) (w : World) (q : qref) :
  q ∉ qs -> queues (put_each x qs w).1 !! q = queues w !! q.
Proof.
  revert w. induction qs as [|q0 rest IH]; intros w Hq; simpl; [done|].
  apply not_elem_of_cons in Hq as [Hne Hq].
  unfold bind. destruct (queue_put x q0 w) as [w1 [[]|e]] eqn:E.
  - rewrite IH by done. change w1 with (w1, Ok tt : outcome unit).1.
    rewrite <- E. by apply queue_put_lookup_ne.
  - discriminate E.
Qed.

Lemma put_each_lookup_in (x : item) (qs : list qref) (w : World) (q : qref)
    (old : list item) :
  NoDup qs -> q ∈ qs -> queues w !! q = Some old ->
  queues (put_each x qs w).1 !! q = Some (old ++ [x]).
Proof.
  revert w. induction qs as [|q0 rest IH]; intros w Hnd Hq Hold; simpl.
  - inversion Hq.
  - apply NoDup_cons in Hnd as [Hnotin Hnd].
    unfold bind. destruct (queue_put x q0 w) as [w1 [[]|e]] eqn:E;
      [|discriminate E].
    assert (Hw1 : w1 = (queue_put x q0 w).1) by (by rewrite E).
    apply elem_of_cons in Hq as [->|Hq].
    + rewrite put_each_lookup_notin by done.
      rewrite Hw1. by apply queue_put_lookup_eq.
    + apply IH; [done..|].
      rewrite Hw1, queue_put_lookup_ne; [done|].
      intros ->. contradiction.
Qed.

Lemma notify_lookup (key : string) (x : item) (w : World) (qs : gset qref)
    (q : qref) (old : list item) :
  subscribers w !! key = Some qs -> q ∈ qs -> queues w !! q = Some old ->
  queues (notify key x w).1 !! q = Some (old ++ [x]).
Proof.
  intros Hs Hq Hold. unfold notify. unfold_monad. rewrite Hs.
  apply put_each_lookup_in; [apply NoDup_elements|by apply elem_of_elements|done].
Qed.

(** ** The apply loop *)

Lemma process_publish_run (operation : ref) (w : World) :
  exists Q,
    process_publish operation w =
      (with_queues Q ((_update_recent_operations operation w).1), Ok tt) /\
    forall qs q old,
      subscribers w !! path (deref w operation) = Some qs -> q ∈ qs ->
      queues w !! q = Some old ->
      Q !! q = Some (old ++ [ItemOperation operation]).
Proof.
  unfold process_publish, _apply_operation, _broadcast_operation,
    _update_recent_operations.
  unfold_monad. cbv zeta.
  match goal with |- context [notify ?k ?x ?w0] =>
    pose proof (notify_lookup k x w0) as Hl;
    destruct (notify_run k x w0) as [Q HQ] end.
  rewrite HQ in Hl |- *. exists Q. split; [reflexivity|].
  intros qs q old Hs Hq Hold. simpl in Hl. eapply Hl; eauto.
Qed.

Lemma process_assign_run (operation : ref) (w : World) :
  process_assign operation w =
    (with_metrics (metrics w ++ [Recorded "sync_operation_processed"])
       (with_heap
          (<[operation := set_version (state_version (state w) + 1)
                             (heap w !!! operation)]> (heap w))
          (with_state (with_state_version (state_version (state w) + 1) (state w))
             w)),
     Ok tt).
Proof. reflexivity. Qed.

Lemma process_one_run (operation : ref) (w : World) :
  exists w', process_one operation w = (w', Ok tt) /\
    state_version (state w') = state_version (state w) + 1 /\
    heap w' = <[operation := set_version (state_version (state w) + 1)
                               (heap w !!! operation)]> (heap w) /\
    operation_queue w' = operation_queue w /\
    running w' = running w /\
    (forall qs q old,
       subscribers w !! path (deref w operation) = Some qs -> q ∈ qs ->
       queues w !! q = Some old ->
       queues w' !! q = Some (old ++ [ItemOperation operation])).
Proof.
  unfold process_one. unfold bind at 1.
  destruct (process_publish_run operation w) as (Q & -> & HQ).
  rewrite process_assign_run. eexists. split; [reflexivity|].
  simpl. repeat split; try reflexivity. exact HQ.
Qed.

Lemma process_iteration_run (w : World) (operation : ref) (rest : list ref) :
  operation_queue w = operation :: rest ->
  exists w', process_iteration w = (w', Ok true) /\
    state_version (state w') = state_version (state w) + 1 /\
    operation_queue w' = rest /\
    running w' = running w /\
    heap w' = <[operation := set_version (state_version (state w) + 1)
                               (heap w !!! operation)]> (heap w).
Proof.
  intros Hq. unfold process_iteration. unfold_monad. rewrite Hq.
  destruct (process_one_run operation (with_operation_queue rest w))
    as (w' & -> & Hv & Hh & Hoq & Hrun & _).
  exists w'. split; [reflexivity|]. simpl in *. by repeat split.
Qed.

Lemma process_operations_drains (fuel : nat) (w : World) :
  running w = true ->
  (length (operation_queue w) <= fuel)%nat ->
  let r := _process_operations fuel w in
  r.2 = Ok tt /\ operation_queue r.1 = [] /\
  state_version (state r.1) =
    state_version (state w) + Z.of_nat (length (operation_queue w)).
Proof.
  revert w. induction fuel as [|fuel IH]; intros w Hrun Hlen; simpl.
  - destruct (operation_queue w); simpl in *; [|lia].
    split; [done|]. split; [done|]. lia.
  - unfold_monad. rewrite Hrun.
    destruct (operation_queue w) as [|operation rest] eqn:Hq.
    + unfold process_iteration. unfold_monad. rewrite Hq. simpl.
      split; [done|]. split; [done|]. lia.
    + destruct (process_iteration_run w operation rest Hq)
        as (w' & E & Hv & Hoq & Hrun' & Hh).
      rewrite E. rewrite Hrun in Hrun'.
      destruct (IH w' Hrun') as (Hr & Hempty & Hver).
      { rewrite Hoq. simpl in Hlen. lia. }
      split; [done|]. split; [done|].
      rewrite Hver, Hv, Hoq. simpl length. lia.
Qed.

(** ** The version counter under every schedule *)

Lemma keeps_version_push_operation (env : Collaborators) (operation : ref) :
  keeps version_unchanged (push_operation env operation).
Proof.
  unfold push_operation, push_operation_body, enqueue_and_record,
    metrics_record, metrics_record_error.
  keeps_step; [|keeps_more].
  keeps_step; [apply keeps_version, keeps_intake|].
  keeps_more.
Qed.

Lemma keeps_version_disconnect_user (env : Collaborators) (user : string) :
  keeps version_unchanged (disconnect_user env user).
Proof.
  unfold disconnect_user, _commit_user_changes, _broadcast_commit_event,
    _release_user_locks, _broadcast_user_event, metrics_record_error.
  repeat first
    [ keeps_step
    | apply keeps_version, keeps_notify_each ].
Qed.

Lemma run_call_version (env : Collaborators) (c : call) (w : World) :
  state_version (state (run_call env c w)) = state_version (state w).
Proof.
  destruct c as [o|operation|user|user|user file|file queue|file user|file user];
    simpl.
  - reflexivity.
  - apply (keeps_version_push_operation env operation w).
  - by destruct (connect_user_run env w user) as [Q ->].
  - apply (keeps_version_disconnect_user env user w).
  - reflexivity.
  - unfold unsubscribe. unfold_monad.
    destruct (subscribers w !! file); [case_bool_decide|]; reflexivity.
  - destruct (locked_files (state w) !! file) as [holder|] eqn:Hl.
    + by rewrite (acquire_lock_held env w file user holder Hl).
    + by destruct (acquire_lock_free env w file user Hl) as [Q ->].
  - destruct (decide (locked_files (state w) !! file = Some user)) as [Hl|Hl].
    + by destruct (release_lock_holder env w file user Hl) as [Q ->].
    + by rewrite (release_lock_other env w file user Hl).
Qed.

Lemma consecutive_from_app (first : Z) (n m : nat) :
  consecutive_from first (n + m) =
    consecutive_from first n ++ consecutive_from (first + Z.of_nat n) m.
Proof.
  unfold consecutive_from. rewrite seq_app, fmap_app. f_equal.
  replace (1 + n)%nat with (n + 1)%nat by lia.
  rewrite <- (fmap_add_seq n 1 m), <- list_fmap_compose.
  apply list_fmap_ext. intros _ i _. simpl. lia.
Qed.

(** ** Publication and version assignment *)




(** ** Storage failure during a push *)

Lemma enqueue_and_record_failure (env : Collaborators) (w : World)
    (target : ref) (e : exn) (pending : list ref) :
  pending_operations w !! user_id (deref w target) = Some pending ->
  db_record_operation env (deref w target) = Some e ->
  enqueue_and_record env target w =
    (with_pending_operations
       (<[user_id (deref w target) := pending ++ [target]]>
          (pending_operations w))
       (with_operation_queue (operation_queue w ++ [target]) w),
     Raise e).
Proof.
  intros Hp Hdb. unfold enqueue_and_record. unfold_monad.
  change (deref (with_operation_queue (operation_queue w ++ [target]) w) target)
    with (deref w target).
  cbn [pending_operations with_operation_queue]. rewrite Hp, Hdb. reflexivity.
Qed.

(** C3 (as the code has it): when [record_operation] fails, [push_operation]
    records the error in its metrics and raises the failure to the caller;
    by then the operation that passed the intake is already at the end of
    the apply queue and of its user's pending list. *)
Theorem C3_record_failure_after_enqueue (env : Collaborators) (w : World)
    (operation target : ref) (e : exn) (pending : list ref) :
  (intake env operation w).2 = Ok (Some target) ->
  pending_operations w
    !! user_id (deref (intake env operation w).1 target) = Some pending ->
  db_record_operation env (deref (intake env operation w).1 target) = Some e ->
  let r := push_operation env operation w in
  r.2 = Raise e /\
  operation_queue r.1 = operation_queue w ++ [target] /\
  pending_operations r.1
    !! user_id (deref (intake env operation w).1 target)
    = Some (pending ++ [target]) /\
  metrics r.1 = metrics w ++ [RecordedError "sync_operation_error" e].
Proof.
  intros Hi Hp Hdb. cbv zeta.
  destruct (keeps_intake env operation w) as (_ & Hq & Hpend & Hm & _).
  unfold push_operation, push_operation_body, metrics_record_error.
  unfold_monad.
  destruct (intake env operation w) as [w1 o]. simpl in *. subst o.
  rewrite <- Hpend in Hp.
  rewrite (enqueue_and_record_failure env w1 target e pending Hp Hdb).
  simpl. rewrite Hq, Hm, lookup_insert_eq. auto.
Qed.

Lemma C3_record_failure_after_enqueue_witness :
  let r := push_operation env_db_down 0%nat world_alice_connected in
  r.2 = Raise (CollaboratorError "storage") /\
  operation_queue r.1 = operation_queue world_alice_connected ++ [0%nat] /\
  pending_operations r.1
    !! user_id (deref (intake env_db_down 0%nat world_alice_connected).1 0%nat)
    = Some ([] ++ [0%nat]) /\
  metrics r.1 =
    metrics world_alice_connected
      ++ [RecordedError "sync_operation_error" (CollaboratorError "storage")].
Proof.
  apply (C3_record_failure_after_enqueue env_db_down world_alice_connected
           0%nat 0%nat (CollaboratorError "storage") []).
  - vm_compute. reflexivity.
  - vm_compute. reflexivity.
  - reflexivity.
Defined.

(** C3, counterexample: the storage collaborator is down; alice's push
    raises, and her operation is on the apply queue and in her pending
    list. *)
Lemma C3_record_failure_counterexample :
  let r := push_operation env_db_down 0%nat world_alice_connected in
  db_record_operation env_db_down (deref world_alice_connected 0%nat)
    = Some (CollaboratorError "storage") /\
  r.2 = Raise (CollaboratorError "storage") /\
  operation_queue r.1 = [0%nat] /\
  pending_operations r.1 !! "alice" = Some [0%nat].
Proof. vm_compute. auto. Qed.

(** ** The insert strategy on well-formed inputs *)

Lemma string_app_assoc (a b c : string) : (a +:+ b) +:+ c = a +:+ (b +:+ c).
Proof.
  induction a as [|x a IH]; [done|].
  change (String x ((a +:+ b) +:+ c) = String x (a +:+ (b +:+ c))).
  by rewrite IH.
Qed.

Lemma string_app_empty_r (a : string) : a +:+ "" = a.
Proof.
  induction a as [|x a IH]; [done|].
  change (String x (a +:+ "") = String x a). by rewrite IH.
Qed.

Lemma insert_by_perm (key : ref -> Z) (x : ref) (l : list ref) :
  insert_by key x l ≡ₚ x :: l.
Proof.
  induction l as [|y l IH]; simpl; [done|].
  destruct (key x <=? key y); [done|].
  rewrite IH. apply Permutation_swap.
Qed.

Lemma sort_by_perm (key : ref -> Z) (l : list ref) : sort_by key l ≡ₚ l.
Proof.
  induction l as [|x l IH]; simpl; [done|].
  unfold sort_by in IH. by rewrite insert_by_perm, IH.
Qed.

Lemma insert_by_sorted (key : ref -> Z) (x : ref) (l : list ref) :
  StronglySorted (fun a b => key a <= key b) l ->
  StronglySorted (fun a b => key a <= key b) (insert_by key x l).
Proof.
  induction l as [|y l IH]; intros Hs; simpl.
  - constructor; [constructor|constructor].
  - apply StronglySorted_inv in Hs as [Hs Hy].
    destruct (key x <=? key y) eqn:Hle.
    + apply Z.leb_le in Hle. constructor.
      * by constructor.
      * constructor; [done|].
        eapply Forall_impl; [exact Hy|]. simpl. intros z Hz. lia.
    + apply Z.leb_gt in Hle. constructor; [by apply IH|].
      rewrite insert_by_perm. constructor; [lia|done].
Qed.

Lemma sort_by_sorted (key : ref -> Z) (l : list ref) :
  StronglySorted (fun a b => key a <= key b) (sort_by key l).
Proof.
  induction l as [|x l IH]; simpl; [constructor|].
  by apply insert_by_sorted.
Qed.

Lemma sort_by_head_lowest (key : ref -> Z) (l : list ref) (first : ref)
    (rest : list ref) :
  sort_by key l = first :: rest ->
  forall r, r ∈ l -> key first <= key r.
Proof.
  intros Hs r Hr.
  pose proof (sort_by_sorted key l) as Hsorted. rewrite Hs in Hsorted.
  apply StronglySorted_inv in Hsorted as [_ Hall].
  rewrite <- (sort_by_perm key l), Hs in Hr.
  apply elem_of_cons in Hr as [->|Hr]; [lia|].
  rewrite Forall_forall in Hall. by apply Hall.
Qed.

Lemma sorted_by_position_inputs (h : list SyncOperation) (l : list ref) :
  insert_inputs h l ->
  sorted_by_position h l =
    Ok (sort_by (fun r => default 0 (position (h !!! r))) l).
Proof.
  intros Hin. unfold sorted_by_position.
  destruct l as [|x [|y l]]; [done..|].
  rewrite (proj2 (forallb_forall _ (x :: y :: l))); [done|].
  intros r Hr. apply bool_decide_eq_true_2.
  apply list_elem_of_In in Hr. by apply Hin.
Qed.

Lemma contents_of_same (h h' : list SyncOperation) (l : list ref) :
  same_but_positions h h' -> contents_of h l = contents_of h' l.
Proof.
  intros [_ Hrel]. unfold contents_of. f_equal.
  apply list_fmap_ext. intros _ r _. simpl.
  destruct (Hrel r) as (_&_&Hc&_). exact (f_equal (default "") Hc).
Qed.

Lemma insert_inputs_assign (h : list SyncOperation) (l : list ref) (op : ref)
    (p : Z) :
  insert_inputs h l ->
  insert_inputs (<[op := set_position (Some p) (h !!! op)]> h) l.
Proof.
  intros Hin r Hr. destruct (Hin r Hr) as (Hlt & Hpos & Hc).
  rewrite length_insert. split; [done|].
  destruct (decide (op = r)) as [->|Hne].
  - rewrite list_lookup_total_insert_eq by done. simpl. eauto.
  - by rewrite list_lookup_total_insert_ne.
Qed.

Lemma insert_loop_inputs (l : list ref) (c : Z) (merged : string) (w : World) :
  insert_inputs (heap w) l ->
  exists H,
    insert_loop l (Some c) merged w =
      (with_heap H w, Ok (merged +:+ contents_of (heap w) l)) /\
    same_but_positions (heap w) H /\
    forall x, x ∉ l -> H !!! x = heap w !!! x.
Proof.
  revert c merged w. induction l as [|op rest IH]; intros c merged w Hin; simpl.
  - exists (heap w). split; [|split; [apply same_but_positions_refl|done]].
    unfold ret, contents_of. simpl. rewrite string_app_empty_r.
    by destruct w.
  - assert (Hrest : insert_inputs (heap w) rest).
    { intros r Hr. apply Hin. apply elem_of_cons. by right. }
    destruct (Hin op) as (Hlt & [p Hp] & [s Hc]); [apply elem_of_cons; by left|].
    unfold_monad. unfold assign_position. unfold_monad.
    unfold deref. rewrite Hp, Hc.
    unfold contents_of. simpl. rewrite Hc. simpl.
    fold (contents_of (heap w) rest). rewrite <- string_app_assoc.
    destruct (p <=? c).
    + match goal with |- context [insert_loop rest (Some ?c0) ?m0 ?w0] =>
        destruct (IH c0 m0 w0) as (H & -> & Hrel & Hout) end.
      { simpl. by apply insert_inputs_assign. }
      simpl in *. exists H. split; [|split].
      * f_equal. f_equal. f_equal. symmetry. apply contents_of_same.
        apply same_but_positions_assign.
      * eapply same_but_positions_trans; [|exact Hrel].
        apply same_but_positions_assign.
      * intros x Hx. apply not_elem_of_cons in Hx as [Hne Hx].
        rewrite Hout by done. by rewrite list_lookup_total_insert_ne.
    + match goal with |- context [insert_loop rest (Some ?c0) ?m0 ?w0] =>
        destruct (IH c0 m0 w0) as (H & -> & Hrel & Hout) end; [done|].
      exists H. split; [by destruct w|]. split; [done|].
      intros x Hx. apply not_elem_of_cons in Hx as [Hne Hx]. by apply Hout.
Qed.

Lemma insert_loop_first (first : ref) (rest : list ref) (lowest : Z) (w : World) :
  insert_inputs (heap w) (first :: rest) ->
  first ∉ rest ->
  position (heap w !!! first) = Some lowest ->
  exists H,
    insert_loop (first :: rest) (Some lowest) "" w =
      (with_heap H w, Ok (contents_of (heap w) (first :: rest))) /\
    same_but_positions (heap w) H /\
    position (H !!! first) = Some (lowest + 1).
Proof.
  intros Hin Hnotin Hlow.
  destruct (Hin first) as (Hlt & _ & [s Hs]); [apply elem_of_cons; by left|].
  assert (Hrest : insert_inputs (heap w) rest).
  { intros r Hr. apply Hin. apply elem_of_cons. by right. }
  simpl. unfold_monad. unfold assign_position. unfold_monad.
  unfold deref. rewrite Hlow, Hs, Z.leb_refl.
  match goal with |- context [insert_loop rest (Some ?c0) ?m0 ?w0] =>
    destruct (insert_loop_inputs rest c0 m0 w0) as (H & -> & Hrel & Hout) end.
  { simpl. by apply insert_inputs_assign. }
  simpl in *. exists H. split; [|split].
  - f_equal. f_equal. unfold contents_of at 2. simpl. rewrite Hs. simpl.
    fold (contents_of (heap w) rest).
    change ("" +:+ s) with s. f_equal. symmetry. apply contents_of_same.
    apply same_but_positions_assign.
  - eapply same_but_positions_trans; [|exact Hrel].
    apply same_but_positions_assign.
  - rewrite Hout by done. by rewrite list_lookup_total_insert_eq.
Qed.

(** On every well-formed insert conflict the strategy returns a new insert
    by ["system"]; its content is the concatenation of the input contents in
    ascending order of position (a permutation of the inputs, so nothing is
    lost), and its position is the lowest input position plus one. *)
Lemma resolve_insert_shifts_first (env : Collaborators) (w : World)
    (op0 : ref) (others : list ref) :
  NoDup (op0 :: others) ->
  insert_inputs (heap w) (op0 :: others) ->
  exists first rest lowest,
    sort_by (fun r => default 0 (position (heap w !!! r))) (op0 :: others)
      = first :: rest /\
    first :: rest ≡ₚ op0 :: others /\
    position (heap w !!! first) = Some lowest /\
    (forall r p, r ∈ op0 :: others -> position (heap w !!! r) = Some p ->
                 lowest <= p) /\
    let r := _resolve_insert_conflict env (op0 :: others) w in
    r.2 = Ok (Some (length (heap w))) /\
    heap r.1 !! length (heap w) =
      Some (mkSyncOperation "insert" (path (heap w !!! op0))
              (Some (contents_of (heap w) (first :: rest)))
              (Some (lowest + 1)) "system" (now env) (-1)).
Proof.
  intros Hnd Hin.
  set (key := fun r => default 0 (position (heap w !!! r))).
  pose proof (sort_by_perm key (op0 :: others)) as Hperm.
  destruct (sort_by key (op0 :: others)) as [|first rest] eqn:Hsort.
  { apply Permutation_nil_l in Hperm. discriminate. }
  assert (Hin' : insert_inputs (heap w) (first :: rest)).
  { intros r Hr. apply Hin. by rewrite <- Hperm. }
  destruct (Hin' first) as (Hlt & [lowest Hlow] & _);
    [apply elem_of_cons; by left|].
  assert (Hnd' : NoDup (first :: rest)) by (by rewrite Hperm).
  apply NoDup_cons in Hnd' as [Hfirst Hnd'].
  exists first, rest, lowest.
  split; [reflexivity|]. split; [exact Hperm|]. split; [exact Hlow|]. split.
  { intros r p Hr Hp.
    pose proof (sort_by_head_lowest key (op0 :: others) first rest Hsort r Hr)
      as Hle.
    unfold key in Hle. rewrite Hlow, Hp in Hle. exact Hle. }
  destruct (insert_loop_first first rest lowest w Hin' Hfirst Hlow)
    as (H & Hloop & [Hlen Hrel] & Hpos).
  assert (E : _resolve_insert_conflict env (op0 :: others) w =
    (with_heap
       (H ++ [mkSyncOperation "insert" (path (heap w !!! op0))
                (Some (contents_of (heap w) (first :: rest)))
                (Some (lowest + 1)) "system" (now env) (-1)]) w,
     Ok (Some (length (heap w))))).
  { unfold _resolve_insert_conflict, _resolve_insert_conflict_body.
    unfold try_except, bind at 1, get_world.
    unfold bind at 1, lift_outcome.
    rewrite (sorted_by_position_inputs _ _ Hin).
    fold key. rewrite Hsort.
    unfold bind at 1. unfold deref at 1. rewrite Hlow, Hloop.
    unfold_monad. simpl. unfold deref. simpl.
    rewrite Hpos, <- Hlen. destruct (Hrel op0) as (_ & <- & _). reflexivity. }
  cbv zeta. rewrite E. simpl. split; [reflexivity|].
  apply list_lookup_middle. by rewrite Hlen.
Qed.

(** * Further properties of the code *)

(** ** Conflict detector: the pairwise test *)

Lemma operations_conflict_guard (a b : SyncOperation) :
  path a <> path b \/ user_id a = user_id b ->
  _operations_conflict a b = Ok false.
Proof.
  intros H. unfold _operations_conflict.
  destruct H as [H|H].
  - by rewrite bool_decide_eq_true_2.
  - case_bool_decide; [done|]. by rewrite (bool_decide_eq_true_2 _ H).
Qed.

Lemma collect_conflicts_guard (h : list SyncOperation) (op : SyncOperation)
    (recents : list nat) :
  (forall r, r ∈ recents ->
     path (h !!! r) <> path op \/ user_id (h !!! r) = user_id op) ->
  collect_conflicts h op recents = Ok [].
Proof.
  induction recents as [|x rest IH]; intros H; simpl; [done|].
  rewrite operations_conflict_guard.
  - rewrite IH; [done|]. intros r Hr. apply H. apply elem_of_cons. by right.
  - destruct (H x) as [Hp|Hu]; [apply elem_of_cons; by left| |]; auto.
Qed.

(** X1: operations on other paths, and operations of the same user, never
    conflict: when every operation of the window is one or the other,
    [check_conflict] returns [None] and changes nothing. *)
Theorem X1_no_conflict_other_path_or_same_user (env : Collaborators)
    (w : World) (operation : nat) (recent_ops : list nat) :
  (forall r, r ∈ recent_ops ->
     path (deref w r) <> path (deref w operation) \/
     user_id (deref w r) = user_id (deref w operation)) ->
  check_conflict env operation recent_ops w = (w, Ok None).
Proof.
  intros H. apply check_conflict_none. by apply collect_conflicts_guard.
Qed.

Lemma X1_no_conflict_other_path_or_same_user_witness :
  check_conflict env_up 1%nat [0%nat] world_alice_twice
    = (world_alice_twice, Ok None).
Proof.
  apply (X1_no_conflict_other_path_or_same_user env_up world_alice_twice
           1%nat [0%nat]).
  intros r Hr. right. apply list_elem_of_singleton in Hr as ->. reflexivity.
Defined.

Lemma operations_conflict_delete (a b : SyncOperation) :
  operation_type a = "delete" \/ operation_type b = "delete" ->
  _operations_conflict a b =
    Ok (bool_decide (path a = path b /\ user_id a <> user_id b)).
Proof.
  intros H. unfold _operations_conflict.
  destruct H as [H|H]; rewrite H; repeat case_bool_decide; simpl;
    try reflexivity; try discriminate; try tauto; naive_solver.
Qed.

Lemma collect_conflicts_delete (h : list SyncOperation) (op : SyncOperation)
    (recents : list nat) :
  operation_type op = "delete" ->
  collect_conflicts h op recents =
    Ok (filter (fun r => path op = path (h !!! r) /\
                         user_id op <> user_id (h !!! r)) recents).
Proof.
  intros Hd. induction recents as [|x rest IH]; simpl; [done|].
  rewrite operations_conflict_delete by auto. rewrite IH.
  rewrite filter_cons. case_bool_decide.
  - by rewrite decide_True.
  - by rewrite decide_False.
Qed.

(** X2: a delete conflicts with every operation on its path by another
    user, whichever of the two is the delete.  For a new delete the conflict
    holds the delete first and then exactly the window's operations on that
    path by other users, in window order. *)
Theorem X2_delete_conflicts_with_anything (env : Collaborators) (w : World)
    (operation recent : nat) (recent_ops : list nat) :
  operation_type (deref w operation) = "delete" ->
  recent ∈ recent_ops ->
  path (deref w operation) = path (deref w recent) ->
  user_id (deref w operation) <> user_id (deref w recent) ->
  _operations_conflict (deref w operation) (deref w recent) = Ok true /\
  _operations_conflict (deref w recent) (deref w operation) = Ok true /\
  (check_conflict env operation recent_ops w).2
    = Ok (Some (length (conflict_heap w))) /\
  conflict_operations
    (conflict_heap (check_conflict env operation recent_ops w).1
       !!! length (conflict_heap w))
    = operation ::
        filter (fun r => path (deref w operation) = path (deref w r) /\
                         user_id (deref w operation) <> user_id (deref w r))
               recent_ops.
Proof.
  intros Hd Hin Hp Hu.
  split; [|split].
  - rewrite operations_conflict_delete by auto. by rewrite bool_decide_eq_true_2.
  - rewrite operations_conflict_delete by auto.
    rewrite bool_decide_eq_true_2; [done|]. split; congruence.
  - pose proof (collect_conflicts_delete (heap w) (deref w operation)
                  recent_ops Hd) as Hc.
    destruct (filter _ recent_ops) as [|x cs] eqn:Hf.
    { exfalso. assert (Hr : recent ∈ filter (fun r =>
                 path (deref w operation) = path (heap w !!! r) /\
                 user_id (deref w operation) <> user_id (heap w !!! r))
                 recent_ops).
      { apply list_elem_of_filter. split; [by split|done]. }
      rewrite Hf in Hr. inversion Hr. }
    rewrite (check_conflict_found env w operation recent_ops x cs Hc).
    simpl. split; [reflexivity|].
    rewrite list_lookup_total_middle by reflexivity. reflexivity.
Qed.

Lemma X2_delete_conflicts_with_anything_witness :
  (check_conflict env_up 1%nat [0%nat] world_alice_bob).2 = Ok (Some 0%nat).
Proof.
  apply (X2_delete_conflicts_with_anything env_up world_alice_bob
           1%nat 0%nat [0%nat]).
  - reflexivity.
  - apply list_elem_of_singleton. reflexivity.
  - reflexivity.
  - vm_compute. discriminate.
Defined.

(** X3: the pairwise test does not depend on the order of its two
    operations; two inserts on a path by different users conflict exactly
    when their positions differ by at most 1, and an insert never conflicts
    with a modify. *)
Theorem X3_pairwise_test_symmetric (a b : SyncOperation) :
  _operations_conflict a b = _operations_conflict b a /\
  (forall p1 p2,
     operation_type a = "insert" -> operation_type b = "insert" ->
     path a = path b -> user_id a <> user_id b ->
     position a = Some p1 -> position b = Some p2 ->
     _operations_conflict a b = Ok (bool_decide (-1 <= p1 - p2 <= 1))) /\
  (operation_type a = "insert" -> operation_type b = "modify" ->
   _operations_conflict a b = Ok false).
Proof.
  assert (Habs : forall p1 p2 : Z,
             bool_decide (Z.abs (p1 - p2) < 2) = bool_decide (Z.abs (p2 - p1) < 2))
    by (intros; apply bool_decide_ext; lia).
  split; [|split].
  - unfold _operations_conflict, _modifications_overlap.
    destruct (position a) as [p1|], (position b) as [p2|];
      try rewrite (Habs p1 p2);
      repeat case_bool_decide; simpl; try reflexivity; try congruence; tauto.
  - intros p1 p2 Ha Hb Hp Hu H1 H2. unfold _operations_conflict.
    rewrite Ha, Hb, H1, H2.
    replace (bool_decide (-1 <= p1 - p2 <= 1))
      with (bool_decide (Z.abs (p1 - p2) < 2))
      by (apply bool_decide_ext; lia).
    repeat case_bool_decide; simpl; try reflexivity; try congruence;
      try discriminate; tauto.
  - intros Ha Hb. unfold _operations_conflict. rewrite Ha, Hb.
    repeat case_bool_decide; simpl; try reflexivity; discriminate.
Qed.

Lemma X3_pairwise_test_symmetric_witness :
  _operations_conflict insert1 insert2 = Ok (bool_decide (-1 <= 10 - 10 <= 1)).
Proof.
  apply (X3_pairwise_test_symmetric insert1 insert2); try reflexivity.
  vm_compute. discriminate.
Defined.

Lemma collect_conflicts_sound (h : list SyncOperation) (op : SyncOperation)
    (recents found : list nat) :
  collect_conflicts h op recents = Ok found ->
  sublist found recents /\
  forall r, r ∈ found -> _operations_conflict op (h !!! r) = Ok true.
Proof.
  revert found. induction recents as [|x rest IH]; intros found; simpl.
  - intros [= <-]. split; [constructor|]. intros r Hr. inversion Hr.
  - destruct (_operations_conflict op (h !!! x)) as [b|e] eqn:Hb; [|discriminate].
    destruct (collect_conflicts h op rest) as [cs|e]; [|discriminate].
    intros [= <-]. destruct (IH cs eq_refl) as [Hsub Htrue].
    destruct b.
    + split; [by constructor|]. intros r Hr.
      apply elem_of_cons in Hr as [->|Hr]; [done|by apply Htrue].
    + split; [by constructor|done].
Qed.

(** X4: a conflict reported by [check_conflict] is a new, unresolved
    [Conflict]; its operations are the new operation followed by at least
    one operation of the window (in window order, each conflicting with the
    new one, each by another user on the same path); its users are the user
    ids of these operations without repetition; it is appended to the
    resolver's list for the path, and no operation object is touched. *)
Theorem X4_reported_conflict_shape (env : Collaborators) (w w' : World)
    (operation c : nat) (recent_ops : list nat) :
  check_conflict env operation recent_ops w = (w', Ok (Some c)) ->
  let conflict := conflict_heap w' !!! c in
  c = length (conflict_heap w) /\
  heap w' = heap w /\
  conflict_heap w' = conflict_heap w ++ [conflict] /\
  conflicts w' !! path (deref w operation)
    = Some (default [] (conflicts w !! path (deref w operation)) ++ [c]) /\
  resolved conflict = false /\ resolution conflict = None /\
  (exists found,
     conflict_operations conflict = operation :: found /\
     found <> [] /\ sublist found recent_ops /\
     forall r, r ∈ found ->
       _operations_conflict (deref w operation) (deref w r) = Ok true /\
       path (deref w r) = path (deref w operation) /\
       user_id (deref w r) <> user_id (deref w operation)) /\
  NoDup (conflict_users conflict) /\
  (forall u, u ∈ conflict_users conflict <->
     exists r, r ∈ conflict_operations conflict /\ user_id (deref w r) = u).
Proof.
  intros H.
  destruct (collect_conflicts (heap w) (deref w operation) recent_ops)
    as [[|x cs]|e] eqn:Hc.
  - rewrite (check_conflict_none env w operation recent_ops Hc) in H.
    discriminate.
  - rewrite (check_conflict_found env w operation recent_ops x cs Hc) in H.
    injection H as <- <-. cbv zeta. simpl.
    rewrite list_lookup_total_middle by reflexivity. simpl.
    destruct (collect_conflicts_sound _ _ _ _ Hc) as [Hsub Htrue].
    split; [reflexivity|]. split; [reflexivity|]. split; [reflexivity|].
    split; [apply lookup_insert_eq|]. split; [reflexivity|].
    split; [reflexivity|]. split; [|split].
    + exists (x :: cs). split; [reflexivity|]. split; [discriminate|].
      split; [exact Hsub|]. intros r Hr. specialize (Htrue r Hr).
      split; [exact Htrue|].
      destruct (decide (path (deref w r) = path (deref w operation)))
        as [Hp|Hp];
        [destruct (decide (user_id (deref w r) = user_id (deref w operation)))
           as [Hu|Hu]|].
      * unfold deref in *.
        rewrite operations_conflict_guard in Htrue by auto. discriminate.
      * done.
      * unfold deref in *.
        rewrite operations_conflict_guard in Htrue by auto. discriminate.
    + apply NoDup_elements.
    + intros u. unfold distinct_users.
      rewrite elem_of_elements, elem_of_list_to_set, list_elem_of_fmap.
      split.
      * intros (r & -> & Hr). exists r. split; [|reflexivity].
        rewrite elem_of_cons, elem_of_app, list_elem_of_singleton in Hr.
        rewrite !elem_of_cons. tauto.
      * intros (r & Hr & <-). exists r. split; [reflexivity|].
        rewrite !elem_of_cons in Hr.
        rewrite elem_of_cons, elem_of_app, list_elem_of_singleton. tauto.
  - rewrite (check_conflict_raised env w operation recent_ops e Hc) in H.
    discriminate.
Qed.

Lemma X4_reported_conflict_shape_witness :
  exists w', check_conflict env_up 1%nat [0%nat] world_alice_bob
               = (w', Ok (Some 0%nat)) /\
             resolved (conflict_heap w' !!! 0%nat) = false.
Proof.
  eexists. split; [vm_compute; reflexivity|].
  refine (proj1 (proj2 (proj2 (proj2 (proj2
    (X4_reported_conflict_shape env_up world_alice_bob _ 1%nat 0%nat [0%nat] _)))))).
  vm_compute. reflexivity.
Defined.

(** ** The resolver's dispatch *)

#[global] Instance strategy_frame_preorder : PreOrder strategy_frame.
Proof.
  split.
  - intros w. by repeat split.
  - intros w1 w2 w3 (?&?&?&?&?&?&?&?&?) (?&?&?&?&?&?&?&?&?).
    repeat split; congruence.
Qed.

Lemma strategy_frame_alloc_operation (o : SyncOperation) :
  keeps strategy_frame (alloc_operation o).
Proof. intros w. by repeat split. Qed.

Lemma strategy_frame_insert_loop (sorted_ops : list nat) (current_pos : option Z)
    (merged : string) :
  keeps strategy_frame (insert_loop sorted_ops current_pos merged).
Proof.
  intros w.
  destruct (insert_loop_frame sorted_ops current_pos merged w) as (H & -> & _).
  by repeat split.
Qed.

Lemma strategy_frame_strategy (env : Collaborators) (kind : string)
    (strategy : list nat -> M (option nat)) (operations : list nat) :
  resolution_strategies env kind = Some strategy ->
  keeps strategy_frame (strategy operations).
Proof.
  unfold resolution_strategies. intros H.
  repeat case_bool_decide; simplify_eq.
  - unfold _resolve_modify_conflict, _resolve_modify_conflict_body,
      resolver_record_error.
    repeat first [keeps_step | apply strategy_frame_alloc_operation].
  - unfold _resolve_delete_conflict. repeat keeps_step.
  - unfold _resolve_insert_conflict, _resolve_insert_conflict_body,
      resolver_record_error.
    repeat first [keeps_step | apply strategy_frame_alloc_operation
                 | apply strategy_frame_insert_loop].
Qed.

(** X5: [resolve_conflict] never raises.  A conflict without operations
    gives [None] and an entry in the resolver's error log; a conflict with a
    single operation gives that operation back and marks nothing; a conflict
    whose primary operation has none of the three kinds gives [None] and
    changes nothing. *)
Theorem X5_resolve_conflict_edge_cases (env : Collaborators) (w : World)
    (c : nat) :
  (exists r, (resolve_conflict env c w).2 = Ok r) /\
  (conflict_operations (conflict_heap w !!! c) = [] ->
   resolve_conflict env c w =
     (with_resolver_metrics
        (resolver_metrics w
           ++ [RecordedError "conflict_resolution_error" IndexError]) w,
      Ok None)) /\
  (forall only, conflict_operations (conflict_heap w !!! c) = [only] ->
   resolve_conflict env c w = (w, Ok (Some only))) /\
  (forall primary second rest,
     conflict_operations (conflict_heap w !!! c) = primary :: second :: rest ->
     operation_type (deref w primary) ∉ ["modify"; "delete"; "insert"] ->
     resolve_conflict env c w = (w, Ok None)).
Proof.
  split; [|split; [|split]].
  - unfold resolve_conflict, try_except, resolver_record_error.
    destruct (resolve_conflict_body env c w) as [w1 [r|e]]; simpl; eauto.
  - intros H. unfold resolve_conflict, resolve_conflict_body,
      resolver_record_error. unfold_monad. by rewrite H.
  - intros only H. unfold resolve_conflict, resolve_conflict_body.
    unfold_monad. by rewrite H.
  - intros primary second rest H Hk.
    unfold resolve_conflict, resolve_conflict_body, resolution_strategies.
    unfold_monad. rewrite H.
    rewrite !elem_of_cons in Hk.
    repeat case_bool_decide; try reflexivity; exfalso; apply Hk; auto.
Qed.

Lemma X5_resolve_conflict_edge_cases_witness :
  resolve_conflict env_up 0%nat world_empty_conflict =
    (with_resolver_metrics
       (resolver_metrics world_empty_conflict
          ++ [RecordedError "conflict_resolution_error" IndexError])
       world_empty_conflict,
     Ok None).
Proof.
  apply (X5_resolve_conflict_edge_cases env_up world_empty_conflict 0%nat).
  reflexivity.
Defined.

(** X6: when the primary operation of a conflict is a delete, the delete
    wins: [resolve_conflict] returns the primary operation itself, creates
    and changes no operation, and marks the conflict resolved with the
    delete as its resolution. *)
Theorem X6_primary_delete_wins (env : Collaborators) (w : World)
    (c primary second : nat) (rest : list nat) :
  (c < length (conflict_heap w))%nat ->
  conflict_operations (conflict_heap w !!! c) = primary :: second :: rest ->
  operation_type (deref w primary) = "delete" ->
  let r := resolve_conflict env c w in
  r.2 = Ok (Some primary) /\
  heap r.1 = heap w /\
  resolved (conflict_heap r.1 !!! c) = true /\
  resolution (conflict_heap r.1 !!! c) = Some primary /\
  conflict_operations (conflict_heap r.1 !!! c) = primary :: second :: rest.
Proof.
  intros Hc Hops Hd. cbv zeta.
  unfold resolve_conflict, resolve_conflict_body, resolution_strategies,
    _resolve_delete_conflict, mark_resolved.
  unfold_monad. rewrite Hops, Hd. simpl.
  unfold deref in Hd. unfold deref. rewrite Hd. simpl.
  rewrite list_lookup_total_insert_eq by done. simpl.
  rewrite Hops. auto.
Qed.

Lemma X6_primary_delete_wins_witness :
  (resolve_conflict env_up 0%nat world_modify_delete).2 = Ok (Some 1%nat).
Proof.
  apply (X6_primary_delete_wins env_up world_modify_delete 0%nat 1%nat 0%nat []).
  - simpl. lia.
  - reflexivity.
  - reflexivity.
Defined.

(** X7: for a conflict of two or more operations, the conflict object is
    marked resolved, with the returned operation as its resolution, exactly
    when [resolve_conflict] returns an operation; otherwise no conflict
    object changes.  Other conflict objects never change. *)
Theorem X7_resolved_exactly_when_returned (env : Collaborators) (w : World)
    (c primary second : nat) (rest : list nat) :
  (c < length (conflict_heap w))%nat ->
  conflict_operations (conflict_heap w !!! c) = primary :: second :: rest ->
  let r := resolve_conflict env c w in
  match r.2 with
  | Ok (Some res) =>
      conflict_heap r.1 =
        <[c := mkConflict (primary :: second :: rest)
                 (conflict_users (conflict_heap w !!! c))
                 (conflict_timestamp (conflict_heap w !!! c)) true (Some res)]>
          (conflict_heap w)
  | _ => conflict_heap r.1 = conflict_heap w
  end.
Proof.
  intros Hc Hops. cbv zeta.
  unfold resolve_conflict, resolve_conflict_body, mark_resolved,
    resolver_record_error.
  unfold_monad. rewrite Hops.
  destruct (resolution_strategies env _) as [strategy|] eqn:Hs; [|reflexivity].
  pose proof (strategy_frame_strategy env _ strategy
                (primary :: second :: rest) Hs w) as (Hch & _).
  destruct (strategy (primary :: second :: rest) w) as [w1 [[res|]|e]];
    simpl in *; rewrite ?Hch; try reflexivity.
  by rewrite Hops.
Qed.

Lemma X7_resolved_exactly_when_returned_witness :
  match (resolve_conflict env_up 0%nat world_modify_delete).2 with
  | Ok (Some res) =>
      conflict_heap (resolve_conflict env_up 0%nat world_modify_delete).1 =
        <[0%nat := mkConflict [1%nat; 0%nat]
                 (conflict_users (conflict_heap world_modify_delete !!! 0%nat))
                 (conflict_timestamp (conflict_heap world_modify_delete !!! 0%nat))
                 true (Some res)]>
          (conflict_heap world_modify_delete)
  | _ => conflict_heap (resolve_conflict env_up 0%nat world_modify_delete).1
         = conflict_heap world_modify_delete
  end.
Proof.
  apply (X7_resolved_exactly_when_returned env_up world_modify_delete
           0%nat 1%nat 0%nat []).
  - simpl. lia.
  - reflexivity.
Defined.

(** ** The modify strategy *)

Lemma all_strings_None (cs : list (option string)) :
  None ∈ cs -> all_strings cs = None.
Proof.
  induction cs as [|[x|] cs IH]; intros H; simpl; [inversion H| |done].
  apply elem_of_cons in H as [H|H]; [discriminate|]. by rewrite IH.
Qed.

(** X8: the modify strategy never raises.  When it returns an operation,
    that operation is a new object, a [modify] of the path of the conflict's
    first operation by ["system"], with version -1, no position and a
    non-empty content, and nothing else in the store changes.  When some
    operation of the conflict has no content (a delete, for one), or the
    conflict is empty, it returns [None]. *)
Theorem X8_modify_strategy_result (env : Collaborators) (w : World)
    (operations : list nat) :
  let r := _resolve_modify_conflict env operations w in
  (r.2 = Ok None /\ heap r.1 = heap w \/
   exists op0 merged,
     head operations = Some op0 /\ merged <> "" /\
     r.2 = Ok (Some (length (heap w))) /\
     heap r.1 = heap w ++ [mkSyncOperation "modify" (path (deref w op0))
                             (Some merged) None "system" (now env) (-1)]) /\
  ((exists x, x ∈ operations /\ content (deref w x) = None) ->
   r.2 = Ok None) /\
  (operations = [] -> r.2 = Ok None).
Proof.
  cbv zeta. split; [|split].
  - unfold _resolve_modify_conflict, _resolve_modify_conflict_body,
      resolver_record_error.
    unfold_monad.
    destruct (sort_by _ operations) as [|first rest]; simpl; [by left|].
    destruct (_merge_changes env _ _) as [merged|]; simpl; [|by left].
    case_bool_decide; simpl; [by left|].
    destruct operations as [|op0 ops_rest]; simpl; [by left|].
    right. exists op0, merged. auto.
  - intros (x & Hx & Hnone).
    unfold _resolve_modify_conflict, _resolve_modify_conflict_body,
      resolver_record_error.
    unfold_monad.
    pose proof (sort_by_perm (fun r => timestamp (deref w r)) operations)
      as Hperm.
    destruct (sort_by _ operations) as [|first rest]; simpl; [done|].
    rewrite <- Hperm in Hx. apply elem_of_cons in Hx as [->|Hx].
    + rewrite Hnone. reflexivity.
    + unfold _merge_changes. destruct (content (deref w first)); [|done].
      rewrite all_strings_None; [done|].
      apply list_elem_of_fmap. exists x. by split.
  - intros ->. reflexivity.
Qed.

Lemma X8_modify_strategy_result_witness :
  (_resolve_modify_conflict env_up [1%nat; 0%nat] world_alice_bob).2 = Ok None.
Proof.
  apply (proj1 (proj2
    (X8_modify_strategy_result env_up world_alice_bob [1%nat; 0%nat]))).
  exists 1%nat. split; [|reflexivity].
  apply elem_of_cons. by left.
Defined.

(** ** The insert strategy: adjusted positions *)

Lemma insert_loop_spaced (l : list nat) (c : Z) (merged : string) (w : World) :
  NoDup l -> insert_inputs (heap w) l ->
  exists H merged',
    insert_loop l (Some c) merged w = (with_heap H w, Ok merged') /\
    same_but_positions (heap w) H /\
    spaced H l /\
    (forall a rest, l = a :: rest -> c < position_of H a) /\
    (forall x, x ∉ l -> H !!! x = heap w !!! x) /\
    (forall r, r ∈ l -> position_of (heap w) r <= position_of H r).
Proof.
  revert c merged w. induction l as [|a rest IH]; intros c merged w Hnd Hin.
  - exists (heap w), merged. simpl.
    split; [by destruct w|]. split; [apply same_but_positions_refl|].
    split; [done|]. split; [discriminate|]. split; [done|].
    intros r Hr. inversion Hr.
  - apply NoDup_cons in Hnd as [Ha Hnd].
    assert (Hrest : insert_inputs (heap w) rest).
    { intros r Hr. apply Hin. apply elem_of_cons. by right. }
    destruct (Hin a) as (Hlt & [p Hp] & [s Hs]); [apply elem_of_cons; by left|].
    set (p' := if p <=? c then c + 1 else p).
    set (w1 := if p <=? c
               then with_heap (<[a := set_position (Some (c + 1)) (heap w !!! a)]>
                                 (heap w)) w
               else w).
    assert (Hstep : insert_loop (a :: rest) (Some c) merged w =
                    insert_loop rest (Some (p' + Z.of_nat (String.length s)))
                      (merged +:+ s) w1).
    { simpl. unfold_monad. unfold assign_position. unfold_monad.
      unfold deref. rewrite Hp, Hs. unfold p', w1.
      by destruct (p <=? c). }
    rewrite Hstep. clear Hstep.
    assert (Hrel1 : same_but_positions (heap w) (heap w1)).
    { unfold w1. destruct (p <=? c); simpl;
        [apply same_but_positions_assign|apply same_but_positions_refl]. }
    assert (Hin1 : insert_inputs (heap w1) rest).
    { unfold w1. destruct (p <=? c); simpl;
        [by apply insert_inputs_assign|done]. }
    assert (Hpos1 : position (heap w1 !!! a) = Some p').
    { unfold w1, p'. destruct (p <=? c); simpl; [|done].
      by rewrite list_lookup_total_insert_eq. }
    assert (Hother : forall x, x <> a -> heap w1 !!! x = heap w !!! x).
    { intros x Hx. unfold w1. destruct (p <=? c); simpl; [|done].
      by rewrite list_lookup_total_insert_ne. }
    assert (Hp' : c < p' /\ p <= p').
    { unfold p'. destruct (p <=? c) eqn:Hle;
        [apply Z.leb_le in Hle|apply Z.leb_gt in Hle]; lia. }
    destruct (IH (p' + Z.of_nat (String.length s)) (merged +:+ s) w1 Hnd Hin1)
      as (H & merged' & -> & Hrel & Hsp & Hhead & Hout & Hmono).
    assert (HHa : H !!! a = heap w1 !!! a) by (by apply Hout).
    assert (Hw : with_heap H w1 = with_heap H w).
    { unfold w1. by destruct (p <=? c). }
    rewrite Hw. exists H, merged'.
    split; [reflexivity|].
    split; [by eapply same_but_positions_trans|].
    split; [|split; [|split]].
    + destruct rest as [|b rest'] eqn:Hr; [done|].
      split; [|exact Hsp].
      specialize (Hhead b rest' eq_refl).
      unfold end_of, position_of in *. rewrite HHa, Hpos1.
      destruct Hrel1 as [_ Hrel1]. destruct (Hrel1 a) as (_ & _ & Hc & _).
      rewrite <- Hc, Hs. simpl. exact Hhead.
    + intros a0 rest0 [= <- <-]. unfold position_of.
      rewrite HHa, Hpos1. simpl. lia.
    + intros x Hx. apply not_elem_of_cons in Hx as [Hne Hx].
      rewrite Hout by done. by apply Hother.
    + intros r Hr. apply elem_of_cons in Hr as [->|Hr].
      * unfold position_of. rewrite HHa, Hpos1, Hp. simpl. lia.
      * specialize (Hmono r Hr). unfold position_of in *.
        rewrite Hother in Hmono; [done|]. intros ->. contradiction.
Qed.

Lemma spaced_app (h extra : list SyncOperation) (l : list nat) :
  (forall r, r ∈ l -> (r < length h)%nat) ->
  spaced h l -> spaced (h ++ extra) l.
Proof.
  induction l as [|a [|b tl] IH]; intros Hv Hs; simpl; [done..|].
  destruct Hs as [Hab Hs].
  assert (Ha : (a < length h)%nat) by (apply Hv; apply elem_of_cons; by left).
  assert (Hb : (b < length h)%nat)
    by (apply Hv; apply elem_of_cons; right; apply elem_of_cons; by left).
  split.
  - unfold end_of, position_of in *. by rewrite !lookup_total_app_l.
  - apply IH; [|done]. intros r Hr. apply Hv. apply elem_of_cons. by right.
Qed.

(** X9: on distinct inserts that all have a position and a content, the
    insert strategy leaves the inputs, taken in ascending order of their
    original positions, with pairwise disjoint ranges: each one starts
    after the end of the text of the one before it.  No position is
    lowered. *)
Theorem X9_insert_ranges_disjoint (env : Collaborators) (w : World)
    (op0 : nat) (others : list nat) :
  NoDup (op0 :: others) ->
  insert_inputs (heap w) (op0 :: others) ->
  let h' := heap (_resolve_insert_conflict env (op0 :: others) w).1 in
  spaced h' (sort_by (fun r => default 0 (position (heap w !!! r)))
                     (op0 :: others)) /\
  forall r, r ∈ op0 :: others -> position_of (heap w) r <= position_of h' r.
Proof.
  intros Hnd Hin. cbv zeta.
  set (key := fun r => default 0 (position (heap w !!! r))).
  pose proof (sort_by_perm key (op0 :: others)) as Hperm.
  destruct (sort_by key (op0 :: others)) as [|first rest] eqn:Hsort.
  { apply Permutation_nil_l in Hperm. discriminate. }
  assert (Hin' : insert_inputs (heap w) (first :: rest)).
  { intros r Hr. apply Hin. by rewrite <- Hperm. }
  assert (Hnd' : NoDup (first :: rest)) by (by rewrite Hperm).
  destruct (Hin' first) as (_ & [lowest Hlow] & _);
    [apply elem_of_cons; by left|].
  destruct (insert_loop_spaced (first :: rest) lowest "" w Hnd' Hin')
    as (H & merged & Hloop & [Hlen Hrel] & Hsp & _ & _ & Hmono).
  assert (E : exists o, heap (_resolve_insert_conflict env (op0 :: others) w).1
                        = H ++ [o]).
  { unfold _resolve_insert_conflict, _resolve_insert_conflict_body.
    unfold try_except, bind at 1, get_world.
    unfold bind at 1, lift_outcome.
    rewrite (sorted_by_position_inputs _ _ Hin).
    fold key. rewrite Hsort.
    unfold bind at 1. unfold deref at 1. rewrite Hlow, Hloop.
    unfold_monad. simpl. eauto. }
  destruct E as [o ->]. split.
  - apply spaced_app; [|done]. intros r Hr. rewrite <- Hlen. by apply Hin'.
  - intros r Hr. rewrite <- Hperm in Hr. specialize (Hmono r Hr).
    unfold position_of in *. rewrite lookup_total_app_l; [done|].
    rewrite <- Hlen. by apply Hin'.
Qed.

Lemma X9_insert_ranges_disjoint_witness :
  let h' := heap (_resolve_insert_conflict env_up [1%nat; 0%nat]
                    world_two_inserts).1 in
  spaced h' (sort_by (fun r => default 0 (position (heap world_two_inserts !!! r)))
                     [1%nat; 0%nat]) /\
  forall r, r ∈ [1%nat; 0%nat] ->
    position_of (heap world_two_inserts) r <= position_of h' r.
Proof.
  apply (X9_insert_ranges_disjoint env_up world_two_inserts 1%nat [0%nat]).
  - apply NoDup_cons. split; [|apply NoDup_singleton].
    intros H. apply list_elem_of_singleton in H. discriminate.
  - intros r Hr. apply elem_of_cons in Hr as [->|Hr];
      [|apply list_elem_of_singleton in Hr as ->];
      (split; [simpl; lia|split; eexists; reflexivity]).
Defined.

(** ** The intake of [push_operation] *)

Lemma push_operation_rejected (env : Collaborators) (w : World) (operation : nat)
    (e : exn) :
  (intake env operation w) = (w, Raise e) ->
  push_operation env operation w =
    (with_metrics (metrics w ++ [RecordedError "sync_operation_error" e]) w,
     Raise e).
Proof.
  intros H. unfold push_operation, push_operation_body, metrics_record_error.
  unfold_monad. by rewrite H.
Qed.

(** X10: an operation whose kind is none of the three, whose path does not
    exist, or whose user is not connected is rejected with [ValueError]
    before anything else happens: the only change is the error entry in the
    coordinator's metrics. *)
Theorem X10_push_invalid_rejected (env : Collaborators) (w : World)
    (operation : nat) :
  operation_type (deref w operation) ∉ ["insert"; "delete"; "modify"] \/
  path_exists env (path (deref w operation)) = false \/
  user_id (deref w operation) ∉ users (state w) ->
  push_operation env operation w =
    (with_metrics
       (metrics w ++ [RecordedError "sync_operation_error" ValueError]) w,
     Raise ValueError).
Proof.
  intros H. apply push_operation_rejected.
  assert (Hv : _validate_operation env w (deref w operation) = false).
  { unfold _validate_operation.
    destruct H as [H|[H|H]].
    - by rewrite bool_decide_eq_false_2.
    - rewrite H. by case_bool_decide.
    - rewrite (bool_decide_eq_false_2 _ H).
      case_bool_decide; [|done]. by destruct (path_exists env _). }
  unfold intake. unfold_monad. by rewrite Hv.
Qed.

Lemma X10_push_invalid_rejected_witness :
  push_operation env_up 0%nat world_two_modifies =
    (with_metrics
       (metrics world_two_modifies
          ++ [RecordedError "sync_operation_error" ValueError])
       world_two_modifies,
     Raise ValueError).
Proof.
  apply (X10_push_invalid_rejected env_up world_two_modifies 0%nat).
  right. right. simpl. set_solver.
Defined.

(** X11: a valid operation on a file locked by another user is rejected
    with [PermissionError]; nothing is queued, persisted or detected, and
    the only change is the error entry in the coordinator's metrics. *)
Theorem X11_push_on_locked_file_rejected (env : Collaborators) (w : World)
    (operation : nat) (holder : string) :
  _validate_operation env w (deref w operation) = true ->
  locked_files (state w) !! path (deref w operation) = Some holder ->
  holder <> user_id (deref w operation) ->
  push_operation env operation w =
    (with_metrics
       (metrics w ++ [RecordedError "sync_operation_error" PermissionError]) w,
     Raise PermissionError).
Proof.
  intros Hv Hl Hne. apply push_operation_rejected.
  unfold intake, _can_modify_file. unfold_monad.
  rewrite Hv, Hl. simpl. by rewrite bool_decide_eq_false_2.
Qed.

Lemma X11_push_on_locked_file_rejected_witness :
  push_operation env_up 0%nat world_alice_locked_out =
    (with_metrics
       (metrics world_alice_locked_out
          ++ [RecordedError "sync_operation_error" PermissionError])
       world_alice_locked_out,
     Raise PermissionError).
Proof.
  apply (X11_push_on_locked_file_rejected env_up world_alice_locked_out
           0%nat "bob").
  - vm_compute. reflexivity.
  - reflexivity.
  - discriminate.
Defined.

(** X12: a valid operation on a file that is unlocked or locked by its own
    user, with a window that holds only operations of that user or of other
    paths, goes through unchanged: it is appended to the apply queue and to
    its user's pending list, and when storage answers the push is counted in
    the metrics and returns. *)
Theorem X12_push_without_conflict (env : Collaborators) (w : World)
    (operation : nat) (pending : list nat) :
  _validate_operation env w (deref w operation) = true ->
  _can_modify_file w (path (deref w operation)) (user_id (deref w operation))
    = true ->
  (forall r,
     r ∈ default [] (recent_operations (state w) !! path (deref w operation)) ->
     path (deref w r) <> path (deref w operation) \/
     user_id (deref w r) = user_id (deref w operation)) ->
  pending_operations w !! user_id (deref w operation) = Some pending ->
  db_record_operation env (deref w operation) = None ->
  push_operation env operation w =
    (with_metrics (metrics w ++ [Recorded "sync_operation_pushed"])
       (with_pending_operations
          (<[user_id (deref w operation) := pending ++ [operation]]>
             (pending_operations w))
          (with_operation_queue (operation_queue w ++ [operation]) w)),
     Ok tt).
Proof.
  intros Hv Hl Hwin Hp Hdb.
  unfold push_operation, push_operation_body, intake, enqueue_and_record,
    metrics_record.
  unfold_monad. rewrite Hv, Hl. simpl.
  rewrite (check_conflict_none env w operation _
             (collect_conflicts_guard _ _ _ Hwin)).
  change (deref (with_operation_queue (operation_queue w ++ [operation]) w)
            operation) with (deref w operation).
  cbn [pending_operations with_operation_queue]. rewrite Hp, Hdb. reflexivity.
Qed.

Lemma X12_push_without_conflict_witness :
  push_operation env_up 0%nat world_alice_connected =
    (with_metrics
       (metrics world_alice_connected ++ [Recorded "sync_operation_pushed"])
       (with_pending_operations
          (<[user_id (deref world_alice_connected 0%nat) := [] ++ [0%nat]]>
             (pending_operations world_alice_connected))
          (with_operation_queue
             (operation_queue world_alice_connected ++ [0%nat])
             world_alice_connected)),
     Ok tt).
Proof.
  apply (X12_push_without_conflict env_up world_alice_connected 0%nat []).
  - vm_compute. reflexivity.
  - reflexivity.
  - intros r Hr. vm_compute in Hr. inversion Hr.
  - reflexivity.
  - reflexivity.
Defined.

Lemma enqueue_and_record_no_pending (env : Collaborators) (w : World)
    (target : nat) :
  pending_operations w !! user_id (deref w target) = None ->
  enqueue_and_record env target w =
    (with_operation_queue (operation_queue w ++ [target]) w, Raise KeyError).
Proof.
  intros Hp. unfold enqueue_and_record. unfold_monad.
  change (deref (with_operation_queue (operation_queue w ++ [target]) w) target)
    with (deref w target).
  cbn [pending_operations with_operation_queue]. by rewrite Hp.
Qed.

(** X13: when the operation that leaves the intake belongs to a user
    without a pending list, as the synthetic operation of ["system"] does
    after an automatic resolution, [push_operation] has already put it on
    the apply queue when the append to the pending list raises [KeyError];
    no pending list changes and the coordinator's metrics record the
    error. *)
Theorem X13_push_resolution_without_pending_list (env : Collaborators)
    (w : World) (operation target : nat) :
  (intake env operation w).2 = Ok (Some target) ->
  pending_operations w
    !! user_id (deref (intake env operation w).1 target) = None ->
  let r := push_operation env operation w in
  r.2 = Raise KeyError /\
  operation_queue r.1 = operation_queue w ++ [target] /\
  pending_operations r.1 = pending_operations w /\
  metrics r.1 = metrics w ++ [RecordedError "sync_operation_error" KeyError].
Proof.
  intros Hi Hp. cbv zeta.
  destruct (keeps_intake env operation w) as (_ & Hq & Hpend & Hm & _).
  unfold push_operation, push_operation_body, metrics_record_error.
  unfold_monad.
  destruct (intake env operation w) as [w1 o]. simpl in *. subst o.
  rewrite <- Hpend in Hp.
  rewrite (enqueue_and_record_no_pending env w1 target Hp).
  simpl. rewrite Hq, Hm, Hpend. auto.
Qed.

Lemma X13_push_resolution_without_pending_list_witness :
  let r := push_operation env_up 1%nat world_insert_conflict in
  r.2 = Raise KeyError /\
  operation_queue r.1 = operation_queue world_insert_conflict ++ [2%nat] /\
  pending_operations r.1 = pending_operations world_insert_conflict /\
  metrics r.1 =
    metrics world_insert_conflict
      ++ [RecordedError "sync_operation_error" KeyError].
Proof.
  apply (X13_push_resolution_without_pending_list env_up world_insert_conflict
           1%nat 2%nat).
  - vm_compute. reflexivity.
  - vm_compute. reflexivity.
Defined.

Example synthetic_operation_of_system :
  user_id (deref (intake env_up 1%nat world_insert_conflict).1 2%nat) = "system".
Proof. vm_compute. reflexivity. Qed.

(** ** A conflict that cannot be resolved *)

Lemma resolve_modify_missing_content (env : Collaborators) (w : World)
    (operations : list nat) :
  (exists x, x ∈ operations /\ content (deref w x) = None) ->
  _resolve_modify_conflict env operations w = (w, Ok None).
Proof.
  intros (x & Hx & Hnone).
  unfold _resolve_modify_conflict, _resolve_modify_conflict_body.
  unfold_monad.
  pose proof (sort_by_perm (fun r => timestamp (deref w r)) operations)
    as Hperm.
  destruct (sort_by _ operations) as [|first rest]; simpl.
  { rewrite <- Hperm in Hx. inversion Hx. }
  rewrite <- Hperm in Hx. apply elem_of_cons in Hx as [->|Hx].
  - by rewrite Hnone.
  - unfold _merge_changes. destruct (content (deref w first)); [|done].
    rewrite all_strings_None; [done|].
    apply list_elem_of_fmap. exists x. by split.
Qed.

Lemma distinct_users_nonempty (h : list SyncOperation) (l : list nat) (op : nat) :
  distinct_users h (l ++ [op]) <> [].
Proof.
  unfold distinct_users. intros H.
  assert (Hin : user_id (h !!! op) ∈
            elements (list_to_set ((fun r => user_id (h !!! r)) <$> l ++ [op])
                        : gset string)).
  { apply elem_of_elements, elem_of_list_to_set, list_elem_of_fmap.
    exists op. split; [done|]. apply elem_of_app. right.
    by apply list_elem_of_singleton. }
  rewrite H in Hin. inversion Hin.
Qed.

(** X14: a valid modify on an unlocked file whose window holds an
    operation without content by another user on the same path (a delete)
    is detected as a conflict that the modify strategy cannot merge.  When
    storage records the conflict, [push_operation] returns normally and the
    operation is dropped: it is neither queued nor added to a pending list,
    no operation object changes, and the new conflict stays unresolved. *)
Theorem X14_unresolved_conflict_drops_operation (env : Collaborators)
    (w : World) (operation recent : nat) :
  _validate_operation env w (deref w operation) = true ->
  _can_modify_file w (path (deref w operation)) (user_id (deref w operation))
    = true ->
  operation_type (deref w operation) = "modify" ->
  recent ∈ default [] (recent_operations (state w) !! path (deref w operation)) ->
  operation_type (deref w recent) = "delete" ->
  content (deref w recent) = None ->
  path (deref w operation) = path (deref w recent) ->
  user_id (deref w operation) <> user_id (deref w recent) ->
  (forall versions, exists conflict_id,
     db_record_conflict env (path (deref w operation)) versions
       = Ok conflict_id) ->
  let r := push_operation env operation w in
  r.2 = Ok tt /\
  operation_queue r.1 = operation_queue w /\
  pending_operations r.1 = pending_operations w /\
  metrics r.1 = metrics w /\
  heap r.1 = heap w /\
  length (conflict_heap r.1) = S (length (conflict_heap w)) /\
  resolved (conflict_heap r.1 !!! length (conflict_heap w)) = false /\
  head (conflict_operations (conflict_heap r.1 !!! length (conflict_heap w)))
    = Some operation /\
  recent ∈ conflict_operations (conflict_heap r.1 !!! length (conflict_heap w)).
Proof.
  intros Hv Hl Hm Hin Hd Hnone Hp Hu Hdb. cbv zeta.
  destruct (collect_conflicts_modify (heap w) (deref w operation)
              (default [] (recent_operations (state w)
                             !! path (deref w operation))) Hm)
    as (found & Hc & Hmem).
  assert (Hr : recent ∈ found).
  { apply Hmem; [done|]. fold (deref w recent).
    rewrite operations_conflict_delete by auto.
    by rewrite bool_decide_eq_true_2. }
  destruct found as [|x cs]; [inversion Hr|].
  set (c := length (conflict_heap w)).
  set (conflict := mkConflict (operation :: x :: cs)
                     (distinct_users (heap w) ((x :: cs) ++ [operation]))
                     (now env) false None).
  set (w1 := with_conflicts
               (<[path (deref w operation) :=
                    default [] (conflicts w !! path (deref w operation)) ++ [c]]>
                  (conflicts w))
               (with_conflict_heap (conflict_heap w ++ [conflict]) w)).
  assert (Hcheck : check_conflict env operation
             (default [] (recent_operations (state w)
                            !! path (deref w operation))) w
           = (w1, Ok (Some c))).
  { by rewrite (check_conflict_found env w operation _ x cs Hc). }
  assert (Hlook : conflict_heap w1 !!! c = conflict).
  { unfold w1, c. simpl. by rewrite list_lookup_total_middle. }
  assert (Hres : resolve_conflict env c w1 = (w1, Ok None)).
  { unfold resolve_conflict, resolve_conflict_body, resolution_strategies.
    unfold_monad. rewrite Hlook. simpl.
    change (deref w1 operation) with (deref w operation). rewrite Hm. simpl.
    rewrite resolve_modify_missing_content; [done|].
    exists recent. split; [|exact Hnone].
    apply elem_of_cons. by right. }
  destruct (Hdb ((fun r => version (deref w r)) <$> operation :: x :: cs))
    as [conflict_id Hid].
  assert (Hbc : exists Q, _broadcast_conflict env c w1 = (with_queues Q w1, Ok tt)).
  { unfold _broadcast_conflict, generate_message. unfold_monad.
    rewrite Hlook. simpl.
    change (deref w1 operation) with (deref w operation). rewrite Hm. simpl.
    destruct (distinct_users (heap w) (x :: cs ++ [operation])) as [|u us] eqn:Hus.
    { exfalso. by apply (distinct_users_nonempty (heap w) (x :: cs) operation). }
    change (fun r => version (deref w1 r)) with (fun r => version (deref w r)).
    change (deref w1 x) with (deref w x).
    simpl in Hid. rewrite Hid.
    apply notify_each_run. }
  destruct Hbc as [Q Hbc].
  assert (Hintake : intake env operation w = (with_queues Q w1, Ok None)).
  { unfold intake. unfold_monad. rewrite Hv, Hl. simpl.
    rewrite Hcheck, Hres, Hbc. reflexivity. }
  unfold push_operation, push_operation_body. unfold_monad.
  rewrite Hintake. simpl.
  rewrite length_app. simpl.
  rewrite list_lookup_total_middle by reflexivity. simpl.
  repeat split; try reflexivity; [lia|].
  apply elem_of_cons. by right.
Qed.

Lemma X14_unresolved_conflict_drops_operation_witness :
  let r := push_operation env_up 0%nat world_modify_after_delete in
  r.2 = Ok tt /\
  operation_queue r.1 = operation_queue world_modify_after_delete /\
  pending_operations r.1 = pending_operations world_modify_after_delete /\
  metrics r.1 = metrics world_modify_after_delete /\
  heap r.1 = heap world_modify_after_delete /\
  length (conflict_heap r.1) = S (length (conflict_heap world_modify_after_delete)) /\
  resolved (conflict_heap r.1
              !!! length (conflict_heap world_modify_after_delete)) = false /\
  head (conflict_operations
          (conflict_heap r.1
             !!! length (conflict_heap world_modify_after_delete)))
    = Some 0%nat /\
  1%nat ∈ conflict_operations
            (conflict_heap r.1
               !!! length (conflict_heap world_modify_after_delete)).
Proof.
  apply (X14_unresolved_conflict_drops_operation env_up
           world_modify_after_delete 0%nat 1%nat).
  - vm_compute. reflexivity.
  - reflexivity.
  - reflexivity.
  - vm_compute. apply list_elem_of_singleton. reflexivity.
  - reflexivity.
  - reflexivity.
  - reflexivity.
  - vm_compute. discriminate.
  - intros versions. exists 1. reflexivity.
Defined.

(** ** Disconnection *)

Lemma commit_user_changes_run (env : Collaborators) (w : World) (user : string)
    (operations : list nat) :
  pending_operations w !! user = Some operations ->
  (operations <> [] /\
   vc_stage_changes env (deref w <$> operations) = true /\
   committed (vc_commit_changes env (deref w <$> operations) user) = true /\
   exists Q, _commit_user_changes env user w =
     (with_queues Q
        (with_pending_operations (<[user := []]> (pending_operations w)) w),
      Ok tt)) \/
  ((operations = [] \/
    vc_stage_changes env (deref w <$> operations) = false \/
    committed (vc_commit_changes env (deref w <$> operations) user) = false) /\
   _commit_user_changes env user w = (w, Ok tt)).
Proof.
  intros Hp. unfold _commit_user_changes, _broadcast_commit_event, committed.
  unfold_monad. rewrite Hp.
  destruct operations as [|x l]; [right; auto|].
  destruct (vc_stage_changes env _) eqn:Hs; [|right; auto].
  destruct (vc_commit_changes env _ user) as [h|] eqn:Hc; [|right; auto].
  destruct (decide (h = "")) as [->|Hh]; [right; auto|].
  rewrite (bool_decide_eq_false_2 (h = "")) by done.
  left. split; [done|]. split; [done|].
  split; [by rewrite bool_decide_eq_true_2|].
  match goal with |- context [notify_each ?k ?x ?w0] =>
    destruct (notify_each_run k x w0) as [Q ->] end.
  by exists Q.
Qed.

Lemma release_user_locks_lookup (user : string) (locks : gmap string string)
    (p : string) :
  foldr delete locks
    (filter (fun kv => kv.2 = user) (map_to_list locks)).*1 !! p
  = locks_without user locks p.
Proof.
  unfold locks_without. case_decide as H.
  - apply lookup_foldr_delete. apply list_elem_of_fmap.
    exists (p, user). split; [done|].
    apply list_elem_of_filter. split; [done|]. by apply elem_of_map_to_list.
  - apply lookup_foldr_delete_not_elem_of. intros Hin.
    apply list_elem_of_fmap in Hin as ([p' u'] & -> & Hin).
    apply list_elem_of_filter in Hin as [Hu Hin]. simpl in *. subst u'.
    by apply elem_of_map_to_list in Hin.
Qed.

Lemma disconnect_user_run (env : Collaborators) (w : World) (user : string) :
  user ∈ users (state w) ->
  is_Some (pending_operations w !! user) ->
  exists Q,
    disconnect_user env user w =
      (with_queues Q
         (with_pending_operations (delete user (pending_operations w))
            (with_state
               (with_locked_files
                  (foldr delete (locked_files (state w))
                     (filter (fun kv => kv.2 = user)
                        (map_to_list (locked_files (state w)))).*1)
                  (with_users (users (state w) ∖ {[user]}) (state w)))
               w)),
       Ok tt).
Proof.
  intros Hu [operations Hp].
  assert (Hc : exists Q P,
    (match pending_operations w !! user with
     | Some (_ :: _) => _commit_user_changes env user
     | _ => ret tt
     end) w = (with_queues Q (with_pending_operations P w), Ok tt) /\
    is_Some (P !! user) /\ delete user P = delete user (pending_operations w)).
  { rewrite Hp. destruct operations as [|x l].
    - exists (queues w), (pending_operations w). split; [by destruct w|].
      split; [by rewrite Hp|done].
    - destruct (commit_user_changes_run env w user (x :: l) Hp)
        as [(_ & _ & _ & Q & ->)|[_ ->]].
      + exists Q, (<[user := []]> (pending_operations w)).
        split; [done|]. split; [by rewrite lookup_insert_eq|].
        apply delete_insert_eq.
      + exists (queues w), (pending_operations w). split; [by destruct w|].
        split; [by rewrite Hp|done]. }
  destruct Hc as (Q1 & P & Hc & [l' HP] & Hdel).
  unfold disconnect_user, _release_user_locks, _broadcast_user_event.
  unfold bind at 1, get_world. unfold bind at 1. rewrite Hc.
  unfold_monad.
  cbn [state users with_queues with_pending_operations with_state with_users
       pending_operations locked_files].
  rewrite bool_decide_eq_true_2 by done.
  cbn [state users with_queues with_pending_operations with_state with_users
       with_locked_files pending_operations locked_files].
  rewrite HP.
  cbn [state users with_queues with_pending_operations with_state with_users
       with_locked_files pending_operations locked_files].
  rewrite Hdel.
  match goal with |- context [notify_each ?k ?x ?w0] =>
    destruct (notify_each_run k x w0) as [Q ->] end.
  by exists Q.
Qed.

(** X15: disconnecting a registered user returns normally, removes the user
    from the registry and its pending list from the table, and releases
    every lock the user held; the locks of all other users stay as they
    were. *)
Theorem X15_disconnect_releases_locks (env : Collaborators) (w : World)
    (user : string) :
  user ∈ users (state w) ->
  is_Some (pending_operations w !! user) ->
  let r := disconnect_user env user w in
  r.2 = Ok tt /\
  users (state r.1) = users (state w) ∖ {[user]} /\
  pending_operations r.1 = delete user (pending_operations w) /\
  (forall p, locked_files (state r.1) !! p
             = locks_without user (locked_files (state w)) p) /\
  (forall p, locked_files (state r.1) !! p <> Some user).
Proof.
  intros Hu Hp. cbv zeta.
  destruct (disconnect_user_run env w user Hu Hp) as [Q ->]. simpl.
  split; [done|]. split; [done|]. split; [done|].
  split; [intros p; apply release_user_locks_lookup|].
  intros p. rewrite release_user_locks_lookup. unfold locks_without.
  case_decide; congruence.
Qed.

Lemma X15_disconnect_releases_locks_witness :
  let r := disconnect_user env_up "alice" world_alice_holds_lock in
  r.2 = Ok tt /\
  users (state r.1) = users (state world_alice_holds_lock) ∖ {["alice"]} /\
  pending_operations r.1
    = delete "alice" (pending_operations world_alice_holds_lock) /\
  (forall p, locked_files (state r.1) !! p
             = locks_without "alice"
                 (locked_files (state world_alice_holds_lock)) p) /\
  (forall p, locked_files (state r.1) !! p <> Some "alice").
Proof.
  apply (X15_disconnect_releases_locks env_up world_alice_holds_lock "alice").
  - simpl. set_solver.
  - eexists. reflexivity.
Defined.

Example disconnect_keeps_the_lock_of_bob :
  locked_files (state (disconnect_user env_up "alice" world_alice_holds_lock).1)
    = {["g" := "bob"]}.
Proof.
  apply map_eq. intros p.
  destruct (disconnect_user_run env_up world_alice_holds_lock "alice")
    as [Q ->]; [simpl; set_solver|eexists; reflexivity|].
  simpl. rewrite release_user_locks_lookup. unfold locks_without.
  destruct (decide (p = "f")) as [->|Hf]; [reflexivity|].
  destruct (decide (p = "g")) as [->|Hg]; [reflexivity|].
  rewrite lookup_insert_ne by done. rewrite lookup_singleton_ne by done.
  by case_decide.
Qed.

Lemma disconnect_user_unregistered (env : Collaborators) (w : World)
    (user : string) :
  user ∉ users (state w) ->
  exists Q P,
    disconnect_user env user w
      = (with_queues Q (with_pending_operations P w), Raise KeyError) /\
    (pending_operations w !! user = None -> P = pending_operations w).
Proof.
  intros Hu.
  assert (Hc : exists Q P,
    (match pending_operations w !! user with
     | Some (_ :: _) => _commit_user_changes env user
     | _ => ret tt
     end) w = (with_queues Q (with_pending_operations P w), Ok tt) /\
    (pending_operations w !! user = None -> P = pending_operations w)).
  { destruct (pending_operations w !! user) as [[|x l]|] eqn:Hp;
      try (exists (queues w), (pending_operations w); by destruct w).
    destruct (commit_user_changes_run env w user (x :: l) Hp)
      as [(_ & _ & _ & Q & ->)|[_ ->]];
      [eexists _, _; split; [reflexivity|done]|].
    exists (queues w), (pending_operations w). by destruct w. }
  destruct Hc as (Q & P & Hc & HP). exists Q, P. split; [|exact HP].
  unfold disconnect_user. unfold bind at 1, get_world. unfold bind at 1.
  rewrite Hc. unfold_monad.
  cbn [state users with_queues with_pending_operations].
  by rewrite bool_decide_eq_false_2.
Qed.

(** X16: disconnecting a user that is not registered raises [KeyError]
    and leaves the registry, the lock table, the windows and the version
    counter as they were. *)
Theorem X16_disconnect_unregistered_user (env : Collaborators) (w : World)
    (user : string) :
  user ∉ users (state w) ->
  (disconnect_user env user w).2 = Raise KeyError /\
  state (disconnect_user env user w).1 = state w.
Proof.
  intros Hu.
  destruct (disconnect_user_unregistered env w user Hu) as (Q & P & -> & _).
  auto.
Qed.

Lemma X16_disconnect_unregistered_user_witness :
  (disconnect_user env_up "bob" world_alice_holds_lock).2 = Raise KeyError /\
  state (disconnect_user env_up "bob" world_alice_holds_lock).1
    = state world_alice_holds_lock.
Proof.
  apply (X16_disconnect_unregistered_user env_up world_alice_holds_lock "bob").
  simpl. set_solver.
Defined.

(** X17: connecting a user and disconnecting it again returns normally; the
    user is then neither in the registry nor in the table of pending lists,
    whatever it was before, but its (empty) entry in the subscriber table
    is still there. *)
Theorem X17_connect_then_disconnect (env : Collaborators) (w : World)
    (user : string) :
  let w1 := (connect_user env user w).1 in
  let r := disconnect_user env user w1 in
  r.2 = Ok tt /\
  users (state r.1) = users (state w) ∖ {[user]} /\
  pending_operations r.1 = delete user (pending_operations w) /\
  subscribers r.1 = <[user := ∅]> (subscribers w) /\
  state_version (state r.1) = state_version (state w) /\
  recent_operations (state r.1) = recent_operations (state w).
Proof.
  cbv zeta. destruct (connect_user_run env w user) as [Q1 ->]. simpl.
  match goal with |- context [disconnect_user env user ?w0] =>
    destruct (disconnect_user_run env w0 user) as [Q ->] end.
  - simpl. set_solver.
  - simpl. rewrite lookup_insert_eq. eauto.
  - simpl. split; [done|]. split.
    { apply set_eq. intros u.
      rewrite !elem_of_difference, elem_of_union, elem_of_singleton. tauto. }
    split; [apply delete_insert_eq|]. auto.
Qed.


(** A collaborator whose commit returns the empty string: nothing is
    cleared and no commit event is sent. *)
Example commit_with_empty_hash_keeps_pending :
  _commit_user_changes env_empty_hash "alice" world_alice_pending
    = (world_alice_pending, Ok tt) /\
  pending_operations world_alice_pending !! "alice" = Some [0%nat].
Proof. split; reflexivity. Qed.

(** ** What stays the same under every schedule *)

#[global] Instance same_on_preorder {A} (f : World -> A) : PreOrder (same_on f).
Proof.
  split.
  - intros w. reflexivity.
  - intros w1 w2 w3 H1 H2. unfold same_on in *. congruence.
Qed.

#[global] Instance queues_extend_preorder : PreOrder queues_extend.
Proof.
  split.
  - intros w q old H. exists []. by rewrite app_nil_r.
  - intros w1 w2 w3 H1 H2 q old H.
    destruct (H1 q old H) as [a1 Ha1]. destruct (H2 q _ Ha1) as [a2 Ha2].
    exists (a1 ++ a2). by rewrite app_assoc.
Qed.

Lemma keeps_weaken {A} (R R' : World -> World -> Prop) (m : M A) :
  (forall w w', R w w' -> R' w w') -> keeps R m -> keeps R' m.
Proof. intros HR Hm w. apply HR, Hm. Qed.


Lemma coordinator_unchanged_registry (w w' : World) :
  coordinator_unchanged w w' -> same_on registry w w'.
Proof. intros (Hs & _ & Hp & _). unfold same_on, registry. by rewrite Hs, Hp. Qed.


Lemma keeps_registry_enqueue_and_record (env : Collaborators) (operation : ref) :
  keeps (same_on registry) (enqueue_and_record env operation).
Proof.
  intros w. unfold enqueue_and_record, metrics_record. unfold_monad.
  cbn [pending_operations with_operation_queue heap deref].
  change (deref (with_operation_queue (operation_queue w ++ [operation]) w))
    with (deref w).
  destruct (pending_operations w !! user_id (deref w operation))
    as [pending|] eqn:Hp; [|reflexivity].
  assert (Hdom : dom (<[user_id (deref w operation) := pending ++ [operation]]>
                        (pending_operations w)) = dom (pending_operations w)).
  { rewrite dom_insert_L. apply elem_of_dom_2 in Hp.
    by apply subseteq_union_1_L, singleton_subseteq_l. }
  destruct (db_record_operation env (deref w operation));
    unfold same_on, registry; simpl; by rewrite Hdom.
Qed.

Lemma keeps_registry_push_operation (env : Collaborators) (operation : ref) :
  keeps (same_on registry) (push_operation env operation).
Proof.
  unfold push_operation, push_operation_body, metrics_record_error.
  keeps_step; [|keeps_more].
  keeps_step;
    [exact (keeps_weaken _ _ _ coordinator_unchanged_registry
              (keeps_intake env operation))|].
  keeps_step; [apply keeps_registry_enqueue_and_record|keeps_more].
Qed.

Lemma registry_consistent_same (w w' : World) :
  same_on registry w w' -> registry_consistent w -> registry_consistent w'.
Proof.
  unfold same_on, registry. intros H Hc u. injection H as Hu Hd.
  rewrite Hu, <- elem_of_dom, Hd, elem_of_dom. apply Hc.
Qed.

Lemma keeps_update_recent_operations (operation : ref) :
  keeps (same_on registry) (_update_recent_operations operation).
Proof. unfold _update_recent_operations. keeps_auto. Qed.

Lemma keeps_registry_process_iteration :
  keeps (same_on registry) process_iteration.
Proof.
  unfold process_iteration, process_one, process_publish, process_assign,
    _apply_operation, _update_recent_operations, _broadcast_operation,
    assign_version, metrics_record, metrics_record_error.
  repeat first
    [ keeps_step
    | exact (keeps_weaken _ _ _ coordinator_unchanged_registry
               (keeps_notify _ _)) ].
Qed.

Lemma run_call_registry_consistent (env : Collaborators) (c : call) (w : World) :
  registry_consistent w -> registry_consistent (run_call env c w).
Proof.
  intros Hc.
  destruct c as [o|operation|user|user|user file|file queue|file user|file user];
    simpl.
  - exact Hc.
  - exact (registry_consistent_same _ _
             (keeps_registry_push_operation env operation w) Hc).
  - destruct (connect_user_run env w user) as [Q ->]. intros u. simpl.
    destruct (decide (u = user)) as [->|Hne].
    + rewrite lookup_insert_eq. split; [eauto|set_solver].
    + rewrite lookup_insert_ne by done. rewrite <- (Hc u).
      rewrite elem_of_union, elem_of_singleton. tauto.
  - destruct (decide (user ∈ users (state w))) as [Hu|Hu].
    + destruct (disconnect_user_run env w user Hu (proj1 (Hc user) Hu))
        as [Q ->].
      intros u. simpl. destruct (decide (u = user)) as [->|Hne].
      * rewrite lookup_delete_eq, elem_of_difference, elem_of_singleton.
        split; [by intros [_ ?]|by intros [? ?]].
      * rewrite lookup_delete_ne by done. rewrite <- (Hc u).
        rewrite elem_of_difference, elem_of_singleton. tauto.
    + destruct (disconnect_user_unregistered env w user Hu)
        as (Q & P & -> & HP).
      assert (Hnone : pending_operations w !! user = None).
      { destruct (pending_operations w !! user) eqn:E; [|done].
        exfalso. apply Hu, Hc. by rewrite E. }
      rewrite (HP Hnone). intros u. apply Hc.
  - exact Hc.
  - unfold unsubscribe. unfold_monad.
    destruct (subscribers w !! file); [case_bool_decide|]; exact Hc.
  - destruct (locked_files (state w) !! file) as [holder|] eqn:Hl.
    + by rewrite (acquire_lock_held env w file user holder Hl).
    + by destruct (acquire_lock_free env w file user Hl) as [Q ->].
  - destruct (decide (locked_files (state w) !! file = Some user)) as [Hl|Hl].
    + by destruct (release_lock_holder env w file user Hl) as [Q ->].
    + by rewrite (release_lock_other env w file user Hl).
Qed.

(** X19: the set of registered users and the table of pending lists stay
    in step.  In a coordinator where a user is registered exactly when it
    has a pending list (as in a new one), this is still so after every
    interleaving of producer calls and consumer turns; so every registered
    user then has a pending list, and [disconnect_user] of a registered
    user returns normally. *)
Theorem X19_registry_and_pending_lists (env : Collaborators)
    (schedule : list action) (w : World) :
  registry_consistent w ->
  let w' := (run_schedule env schedule w).1 in
  registry_consistent w' /\
  forall user, user ∈ users (state w') ->
    is_Some (pending_operations w' !! user) /\
    (disconnect_user env user w').2 = Ok tt.
Proof.
  intros Hc. cbv zeta.
  assert (H : registry_consistent (run_schedule env schedule w).1).
  { revert w Hc. induction schedule as [|a rest IH]; intros w Hc; [exact Hc|].
    simpl.
    assert (H1 : registry_consistent (step env a w).1).
    { destruct a as [c|]; simpl.
      - by apply run_call_registry_consistent.
      - destruct (operation_queue w); [exact Hc|].
        exact (registry_consistent_same _ _
                 (keeps_registry_process_iteration w) Hc). }
    destruct (step env a w) as [w1 assigned1]. specialize (IH w1 H1).
    by destruct (run_schedule env rest w1). }
  split; [exact H|]. intros user Hu.
  pose proof (proj1 (H user) Hu) as Hp. split; [exact Hp|].
  by destruct (disconnect_user_run env _ user Hu Hp) as [Q ->].
Qed.

Lemma X19_registry_and_pending_lists_witness :
  let w' := (run_schedule env_up schedule_two_pushes init_world).1 in
  registry_consistent w' /\
  forall user, user ∈ users (state w') ->
    is_Some (pending_operations w' !! user) /\
    (disconnect_user env_up user w').2 = Ok tt.
Proof.
  apply (X19_registry_and_pending_lists env_up schedule_two_pushes init_world).
  intros u. simpl. rewrite lookup_empty. split; [set_solver|by intros [? ?]].
Defined.

(** ** The recent-operations windows *)


Lemma process_iteration_windows (w : World) (operation : ref) (rest : list ref) :
  operation_queue w = operation :: rest ->
  recent_operations (state (process_iteration w).1) =
    let file := path (deref w operation) in
    let recent :=
      default [] (recent_operations (state w) !! file) ++ [operation] in
    <[file := if bool_decide (recent_ops_limit < length recent)%nat
              then tail recent else recent]> (recent_operations (state w)).
Proof.
  intros Hq. unfold process_iteration. unfold_monad. rewrite Hq.
  unfold process_one. unfold bind at 1.
  destruct (process_publish_run operation (with_operation_queue rest w))
    as (Q & -> & _).
  rewrite process_assign_run. reflexivity.
Qed.



(** ** The subscriber queues *)

Lemma queues_extend_same (w w' : World) :
  queues w' = queues w -> queues_extend w w'.
Proof. intros H q old Hq. exists []. by rewrite H, app_nil_r. Qed.

Lemma keeps_queues_same {A} (m : M A) :
  keeps (same_on queues) m -> keeps queues_extend m.
Proof. apply keeps_weaken. intros w w'. apply queues_extend_same. Qed.

Lemma keeps_queues_queue_put (x : item) (q : nat) :
  keeps queues_extend (queue_put x q).
Proof.
  intros w q' old Hq. destruct (decide (q = q')) as [->|Hne].
  - exists [x]. by apply queue_put_lookup_eq.
  - exists []. rewrite app_nil_r, <- Hq. by apply queue_put_lookup_ne.
Qed.

Lemma keeps_queues_put_each (x : item) (qs : list nat) :
  keeps queues_extend (put_each x qs).
Proof.
  induction qs as [|q rest IH]; simpl.
  - apply keeps_ret, _.
  - apply keeps_bind; [apply _|apply keeps_queues_queue_put|by intros _].
Qed.

Lemma keeps_queues_notify (key : string) (x : item) :
  keeps queues_extend (notify key x).
Proof.
  unfold notify. apply keeps_bind; [apply _|apply keeps_get_world, _|].
  intros w. destruct (subscribers w !! key).
  - apply keeps_queues_put_each.
  - apply keeps_ret, _.
Qed.

Lemma keeps_queues_notify_each (keys : list string) (x : item) :
  keeps queues_extend (notify_each keys x).
Proof.
  induction keys as [|k rest IH]; simpl.
  - apply keeps_ret, _.
  - apply keeps_bind; [apply _|apply keeps_queues_notify|by intros _].
Qed.

Lemma same_queues_check_conflict (env : Collaborators) (operation : nat)
    (recents : list nat) :
  keeps (same_on queues) (check_conflict env operation recents).
Proof.
  unfold check_conflict, check_conflict_body, register_conflict,
    resolver_record_error, alloc_conflict.
  keeps_auto.
  intros w. reflexivity.
Qed.

Lemma same_queues_resolve_conflict (env : Collaborators) (c : nat) :
  keeps (same_on queues) (resolve_conflict env c).
Proof.
  unfold resolve_conflict, resolve_conflict_body, mark_resolved,
    resolver_record_error.
  keeps_step; [|keeps_auto].
  keeps_step; [keeps_auto|]. cbv zeta.
  destruct (conflict_heap a !!! c) as [[|primary [|second rest]] ? ? ? ?];
    simpl; [keeps_auto..|].
  destruct (resolution_strategies env _) as [strategy|] eqn:Hs; [|keeps_auto].
  keeps_step; [|keeps_auto].
  eapply keeps_weaken; [|by eapply strategy_frame_strategy].
  by intros w w' (_ & H & _).
Qed.

Create HintDb keeps_queues.
#[global] Hint Resolve keeps_queues_put_each keeps_queues_notify
  keeps_queues_notify_each : keeps_queues.

Ltac queues_step :=
  first
    [ keeps_step
    | apply keeps_queues_same; apply keeps_modify_world; intros ?; reflexivity
    | solve [auto with keeps_queues] ].

Lemma keeps_queues_intake (env : Collaborators) (operation : nat) :
  keeps queues_extend (intake env operation).
Proof.
  unfold intake, _broadcast_conflict.
  repeat first
    [ apply keeps_queues_same, same_queues_check_conflict
    | apply keeps_queues_same, same_queues_resolve_conflict
    | queues_step ].
Qed.

Lemma keeps_queues_push_operation (env : Collaborators) (operation : nat) :
  keeps queues_extend (push_operation env operation).
Proof.
  unfold push_operation, push_operation_body, enqueue_and_record,
    metrics_record, metrics_record_error.
  repeat first [ apply keeps_queues_intake | queues_step ].
Qed.

Lemma keeps_queues_connect_user (env : Collaborators) (user : string) :
  keeps queues_extend (connect_user env user).
Proof. unfold connect_user, _broadcast_user_event. repeat queues_step. Qed.

Lemma keeps_queues_disconnect_user (env : Collaborators) (user : string) :
  keeps queues_extend (disconnect_user env user).
Proof.
  unfold disconnect_user, _commit_user_changes, _broadcast_commit_event,
    _release_user_locks, _broadcast_user_event, metrics_record_error.
  repeat queues_step.
Qed.

Lemma keeps_queues_subscribe (user file : string) :
  keeps queues_extend (subscribe user file).
Proof.
  intros w q old Hq. exists []. rewrite app_nil_r. simpl.
  by apply lookup_app_l_Some.
Qed.

Lemma keeps_queues_unsubscribe (file : string) (queue : nat) :
  keeps queues_extend (unsubscribe file queue).
Proof. unfold unsubscribe. repeat queues_step. Qed.

Lemma keeps_queues_acquire_lock (env : Collaborators) (file user : string) :
  keeps queues_extend (acquire_lock env file user).
Proof. unfold acquire_lock, _broadcast_lock_event. repeat queues_step. Qed.

Lemma keeps_queues_release_lock (env : Collaborators) (file user : string) :
  keeps queues_extend (release_lock env file user).
Proof. unfold release_lock, _broadcast_lock_event. repeat queues_step. Qed.

Lemma keeps_queues_process_iteration : keeps queues_extend process_iteration.
Proof.
  unfold process_iteration, process_one, process_publish, process_assign,
    _apply_operation, _update_recent_operations, _broadcast_operation,
    assign_version, metrics_record, metrics_record_error.
  repeat queues_step.
Qed.

Lemma step_queues_extend (env : Collaborators) (a : action) (w : World) :
  queues_extend w (step env a w).1.
Proof.
  destruct a as [[o|operation|user|user|user file|file queue|file user|file user]|];
    simpl.
  - by apply queues_extend_same.
  - exact (keeps_queues_push_operation env operation w).
  - exact (keeps_queues_connect_user env user w).
  - exact (keeps_queues_disconnect_user env user w).
  - exact (keeps_queues_subscribe user file w).
  - exact (keeps_queues_unsubscribe file queue w).
  - exact (keeps_queues_acquire_lock env file user w).
  - exact (keeps_queues_release_lock env file user w).
  - destruct (operation_queue w); [reflexivity|].
    exact (keeps_queues_process_iteration w).
Qed.

Lemma run_schedule_queues_extend (env : Collaborators) (schedule : list action)
    (w : World) :
  queues_extend w (run_schedule env schedule w).1.
Proof.
  revert w. induction schedule as [|a rest IH]; intros w; [reflexivity|].
  simpl. pose proof (step_queues_extend env a w) as H1.
  destruct (step env a w) as [w1 assigned1]. specialize (IH w1).
  destruct (run_schedule env rest w1) as [w2 assigned2]. simpl in *.
  by etransitivity.
Qed.

(** X21: the coordinator only ever appends to a subscriber queue.  Under
    every interleaving of producer calls and consumer turns, a queue that
    exists keeps existing and its content afterwards starts with its content
    before: nothing is removed, replaced or reordered; so the number of
    queues never goes down either. *)
Theorem X21_queues_append_only (env : Collaborators) (schedule : list action)
    (w : World) (q : nat) (old : list item) :
  queues w !! q = Some old ->
  (exists added,
     queues (run_schedule env schedule w).1 !! q = Some (old ++ added)) /\
  (length (queues w) <= length (queues (run_schedule env schedule w).1))%nat.
Proof.
  intros Hq. pose proof (run_schedule_queues_extend env schedule w) as H.
  split; [by apply H|].
  destruct (decide (length (queues w) = 0)%nat) as [->|Hne]; [lia|].
  destruct (lookup_lt_is_Some_2 (queues w) (length (queues w) - 1))
    as [l Hl]; [lia|].
  destruct (H _ _ Hl) as [added Ha]. apply lookup_lt_Some in Ha. lia.
Qed.

Lemma X21_queues_append_only_witness :
  (exists added,
     queues (run_schedule env_up [Consumer; Consumer] world_queued).1 !! 0%nat
       = Some ([] ++ added)) /\
  (length (queues world_queued)
   <= length (queues (run_schedule env_up [Consumer; Consumer] world_queued).1))%nat.
Proof.
  apply (X21_queues_append_only env_up [Consumer; Consumer] world_queued 0 []).
  reflexivity.
Defined.

(** X22: [subscribe] creates a new, empty queue, adds it to the subscriber
    set of the path (creating the set when the path had none) and returns
    it; the other queues and the other subscriber sets stay as they were,
    and the user id plays no part.  [unsubscribe] of the returned queue then
    returns normally and gives the path the subscriber set it had before,
    the empty set when it had none: the entry itself is not removed. *)
Theorem X22_subscribe_then_unsubscribe (user file : string) (w : World) :
  length (queues w) ∉ default ∅ (subscribers w !! file) ->
  let queue := length (queues w) in
  let r := subscribe user file w in
  r.2 = Ok queue /\
  queues r.1 = queues w ++ [[]] /\
  subscribers r.1
    = <[file := {[queue]} ∪ default ∅ (subscribers w !! file)]> (subscribers w) /\
  (forall user', subscribe user' file w = r) /\
  let r' := unsubscribe file queue r.1 in
  r'.2 = Ok tt /\
  subscribers r'.1 = <[file := default ∅ (subscribers w !! file)]> (subscribers w) /\
  queues r'.1 = queues r.1.
Proof.
  intros Hfresh. cbv zeta. simpl.
  split; [done|]. split; [done|]. split; [done|]. split; [done|].
  unfold unsubscribe. unfold_monad. simpl. rewrite lookup_insert_eq.
  rewrite bool_decide_eq_true_2 by set_solver. simpl.
  split; [done|]. split; [|done].
  rewrite insert_insert_eq. f_equal. apply set_eq. intros q.
  rewrite elem_of_difference, elem_of_union, !elem_of_singleton.
  split; [by intros [[->|?] ?]|].
  intros Hq. split; [by right|]. by intros ->.
Qed.

Lemma X22_subscribe_then_unsubscribe_witness :
  let queue := length (queues world_one_subscriber) in
  let r := subscribe "bob" "f" world_one_subscriber in
  r.2 = Ok queue /\
  queues r.1 = queues world_one_subscriber ++ [[]] /\
  subscribers r.1
    = <["f" := {[queue]} ∪ default ∅ (subscribers world_one_subscriber !! "f")]>
        (subscribers world_one_subscriber) /\
  (forall user', subscribe user' "f" world_one_subscriber = r) /\
  let r' := unsubscribe "f" queue r.1 in
  r'.2 = Ok tt /\
  subscribers r'.1
    = <["f" := default ∅ (subscribers world_one_subscriber !! "f")]>
        (subscribers world_one_subscriber) /\
  queues r'.1 = queues r.1.
Proof.
  apply (X22_subscribe_then_unsubscribe "bob" "f" world_one_subscriber).
  vm_compute. set_solver.
Defined.

Lemma put_each_queues (x : item) (qs : list nat) (wa wb : World) :
  queues wa = queues wb ->
  queues (put_each x qs wa).1 = queues (put_each x qs wb).1.
Proof.
  revert wa wb. induction qs as [|q rest IH]; intros wa wb H; simpl; [done|].
  unfold queue_put. unfold_monad. apply IH. simpl. by rewrite H.
Qed.

Lemma process_iteration_queues (w : World) (operation : nat) (rest : list nat) :
  operation_queue w = operation :: rest ->
  queues (process_iteration w).1
    = queues (notify (path (deref w operation)) (ItemOperation operation) w).1 /\
  subscribers (process_iteration w).1 = subscribers w.
Proof.
  intros Hq. unfold process_iteration, process_one. unfold_monad. rewrite Hq.
  destruct (process_publish_run operation (with_operation_queue rest w))
    as (Q & E & _).
  rewrite E, process_assign_run. simpl. split; [|done].
  assert (HQ : Q = queues (process_publish operation
                             (with_operation_queue rest w)).1)
    by (by rewrite E).
  rewrite HQ. unfold process_publish, _apply_operation,
    _update_recent_operations, _broadcast_operation, notify.
  unfold_monad. cbv zeta. unfold deref.
  cbn [heap subscribers with_state with_operation_queue].
  destruct (subscribers w !! path (heap w !!! operation)) as [qs|]; [|done].
  by apply put_each_queues.
Qed.

(** X23: a consumer turn publishes the dequeued operation (the object
    itself) exactly once to every queue subscribed to its path and to no
    other queue: a subscribed queue gets the operation appended, every
    other queue is as it was, and the subscriber table does not change. *)
Theorem X23_published_to_subscribers_only (w : World) (operation : nat)
    (rest : list nat) (q : nat) (old : list item) :
  operation_queue w = operation :: rest ->
  queues w !! q = Some old ->
  let w' := (process_iteration w).1 in
  queues w' !! q =
    Some (if bool_decide
               (q ∈ default ∅ (subscribers w !! path (deref w operation)))
          then old ++ [ItemOperation operation] else old) /\
  subscribers w' = subscribers w /\
  length (queues w') = length (queues w).
Proof.
  intros Hq Hold. cbv zeta.
  destruct (process_iteration_queues w operation rest Hq) as [-> ->].
  assert (Hlook : queues (notify (path (deref w operation))
                            (ItemOperation operation) w).1 !! q =
    Some (if bool_decide
               (q ∈ default ∅ (subscribers w !! path (deref w operation)))
          then old ++ [ItemOperation operation] else old)).
  { destruct (subscribers w !! path (deref w operation)) as [qs|] eqn:Hs.
    - simpl. case_bool_decide as Hin.
      + by eapply notify_lookup.
      + unfold notify. unfold_monad. rewrite Hs.
        rewrite put_each_lookup_notin; [done|].
        by rewrite elem_of_elements.
    - simpl. rewrite bool_decide_eq_false_2 by set_solver.
      unfold notify. unfold_monad. by rewrite Hs. }
  split; [exact Hlook|]. split; [done|].
  unfold notify. unfold_monad.
  destruct (subscribers w !! path (deref w operation)) as [qs|]; [|done].
  generalize (elements qs). intros l. clear. revert w.
  induction l as [|q0 l IH]; intros w; simpl; [done|].
  unfold queue_put. unfold_monad. rewrite IH. simpl.
  by rewrite length_insert.
Qed.

Lemma X23_published_to_subscribers_only_witness :
  let w' := (process_iteration world_queued).1 in
  queues w' !! 0%nat =
    Some (if bool_decide
               (0%nat ∈ default ∅ (subscribers world_queued
                                     !! path (deref world_queued 0%nat)))
          then [] ++ [ItemOperation 0%nat] else []) /\
  subscribers w' = subscribers world_queued /\
  length (queues w') = length (queues world_queued).
Proof.
  apply (X23_published_to_subscribers_only world_queued 0%nat [] 0%nat []);
    reflexivity.
Defined.

Lemma generate_message_reported (w : World) (operation x : nat) (cs : list nat)
    (users : list string) (ts : Z) :
  users <> [] ->
  generate_message w (mkConflict (operation :: x :: cs) users ts false None)
    = Ok (severity_of (operation_type (deref w operation))).
Proof.
  intros Hu. unfold generate_message, severity_of. simpl.
  destruct users as [|u us]; [done|].
  repeat case_bool_decide; simpl; congruence.
Qed.

(** X24: a conflict reported by [check_conflict] can always be announced.
    The message generator never fails on it, and the severity is "error"
    when the new operation is a delete, "warning" when it is a modify or an
    insert, and "info" for any other kind.  [_broadcast_conflict] then
    returns normally; only a failure of the storage collaborator's
    [record_conflict] makes it raise, with that exception and before any
    queue received the event. *)
Theorem X24_reported_conflict_is_announced (env : Collaborators) (w w' : World)
    (operation c : nat) (recent_ops : list nat) :
  check_conflict env operation recent_ops w = (w', Ok (Some c)) ->
  generate_message w' (conflict_heap w' !!! c)
    = Ok (severity_of (operation_type (deref w operation))) /\
  match db_record_conflict env (path (deref w operation))
          ((fun r => version (deref w r))
             <$> conflict_operations (conflict_heap w' !!! c)) with
  | Ok _ => (_broadcast_conflict env c w').2 = Ok tt
  | Raise e => _broadcast_conflict env c w' = (w', Raise e)
  end.
Proof.
  intros H.
  destruct (collect_conflicts (heap w) (deref w operation) recent_ops)
    as [[|x cs]|e] eqn:Hc.
  - rewrite (check_conflict_none env w operation recent_ops Hc) in H.
    discriminate.
  - rewrite (check_conflict_found env w operation recent_ops x cs Hc) in H.
    injection H as <- <-.
    set (conflict := mkConflict (operation :: x :: cs)
                       (distinct_users (heap w) ((x :: cs) ++ [operation]))
                       (now env) false None).
    set (w' := with_conflicts _ (with_conflict_heap _ w)).
    assert (Hconf : conflict_heap w' !!! length (conflict_heap w) = conflict)
      by (subst w'; simpl; by rewrite list_lookup_total_middle).
    assert (Hg : generate_message w' conflict
                 = Ok (severity_of (operation_type (deref w operation))))
      by exact (generate_message_reported w' operation x cs _ (now env)
                  (distinct_users_nonempty (heap w) (x :: cs) operation)).
    rewrite Hconf. split; [exact Hg|].
    unfold _broadcast_conflict. unfold_monad. cbv zeta.
    rewrite Hconf, Hg. cbn [conflict_operations conflict conflict_users].
    change (deref w') with (deref w).
    destruct (db_record_conflict env _ _) as [conflict_id|e]; [|done].
    match goal with |- context [notify_each ?k ?e0 ?w0] =>
      by destruct (notify_each_run k e0 w0) as [Q ->] end.
  - rewrite (check_conflict_raised env w operation recent_ops e Hc) in H.
    discriminate.
Qed.

Lemma X24_reported_conflict_is_announced_witness :
  exists w', check_conflict env_up 1%nat [0%nat] world_alice_bob
               = (w', Ok (Some 0%nat)) /\
             generate_message w' (conflict_heap w' !!! 0%nat)
               = Ok (severity_of
                       (operation_type (deref world_alice_bob 1%nat))).
Proof.
  eexists. split; [vm_compute; reflexivity|].
  refine (proj1
    (X24_reported_conflict_is_announced env_up world_alice_bob _ 1%nat 0%nat
       [0%nat] _)).
  vm_compute. reflexivity.
Defined.

(** ** The versions stored in the applied operations *)

Lemma validate_allocated (env : Collaborators) (w : World) (operation : nat) :
  _validate_operation env w (deref w operation) = true ->
  (operation < length (heap w))%nat.
Proof.
  intros Hv. destruct (decide (operation < length (heap w))%nat) as [|Hge];
    [done|exfalso].
  unfold deref in Hv.
  rewrite list_lookup_total_alt, lookup_ge_None_2 in Hv by lia.
  unfold _validate_operation in Hv. simpl in Hv. discriminate.
Qed.

Lemma refs_allocated_grow (w w' : World) (extra : list nat) :
  refs_allocated w ->
  (length (heap w) <= length (heap w'))%nat ->
  recent_operations (state w') = recent_operations (state w) ->
  operation_queue w' = operation_queue w ++ extra ->
  (forall r, r ∈ extra -> (r < length (heap w'))%nat) ->
  refs_allocated w'.
Proof.
  intros [Hq Hwin] Hlen Hrec Hoq Hextra. split.
  - intros r. rewrite Hoq, elem_of_app. intros [Hr|Hr]; [|by apply Hextra].
    specialize (Hq r Hr). lia.
  - intros file recent r. rewrite Hrec. intros Hf Hr.
    specialize (Hwin file recent r Hf Hr). lia.
Qed.

Lemma refs_allocated_same (w w' : World) :
  same_on alloc_view w w' -> refs_allocated w -> refs_allocated w'.
Proof.
  unfold same_on, alloc_view. intros [= Hh Hq Hr] H.
  apply (refs_allocated_grow w w' []); auto.
  - rewrite Hh. lia.
  - by rewrite app_nil_r.
  - intros r Hin. inversion Hin.
Qed.

Lemma same_on_notify {A} (f : World -> A) (key : string) (x : item) :
  (forall Q w, f (with_queues Q w) = f w) -> keeps (same_on f) (notify key x).
Proof. intros Hf w. destruct (notify_run key x w) as [Q ->]. apply Hf. Qed.

Lemma same_on_notify_each {A} (f : World -> A) (keys : list string) (x : item) :
  (forall Q w, f (with_queues Q w) = f w) ->
  keeps (same_on f) (notify_each keys x).
Proof. intros Hf w. destruct (notify_each_run keys x w) as [Q ->]. apply Hf. Qed.

Lemma broadcast_conflict_heap (env : Collaborators) (c : nat) :
  keeps (same_on heap) (_broadcast_conflict env c).
Proof.
  unfold _broadcast_conflict.
  repeat first [keeps_step | by apply same_on_notify_each].
Qed.

Lemma strategy_allocated (env : Collaborators) (kind : string)
    (strategy : list nat -> M (option nat)) (operations : list nat) (w : World) :
  resolution_strategies env kind = Some strategy ->
  (forall r, r ∈ operations -> (r < length (heap w))%nat) ->
  (length (heap w) <= length (heap (strategy operations w).1))%nat /\
  forall res, (strategy operations w).2 = Ok (Some res) ->
    (res < length (heap (strategy operations w).1))%nat.
Proof.
  unfold resolution_strategies. intros H Hops.
  repeat case_bool_decide; simplify_eq.
  - destruct (resolve_modify_frame env operations w)
      as [[Hh Hr]|(o & Hh & Hr)]; rewrite Hh, Hr.
    + split; [lia|discriminate].
    + rewrite length_app. simpl. split; [lia|]. intros res [= <-]. lia.
  - destruct (resolve_delete_frame operations w) as [Hw Hres]. rewrite Hw.
    split; [lia|]. intros res Hr. apply Hops. by apply Hres.
  - destruct (resolve_insert_frame env operations w)
      as (H' & [Hlen _] & [[Hh Hr]|(o & Hh & Hr)]); rewrite Hh, Hr.
    + split; [lia|discriminate].
    + rewrite length_app. simpl. split; [lia|]. intros res [= <-]. lia.
Qed.

Lemma resolve_conflict_allocated (env : Collaborators) (c : nat) (w : World) :
  (forall r, r ∈ conflict_operations (conflict_heap w !!! c) ->
     (r < length (heap w))%nat) ->
  (length (heap w) <= length (heap (resolve_conflict env c w).1))%nat /\
  forall res, (resolve_conflict env c w).2 = Ok (Some res) ->
    (res < length (heap (resolve_conflict env c w).1))%nat.
Proof.
  intros Hops.
  unfold resolve_conflict, resolve_conflict_body, mark_resolved,
    resolver_record_error.
  unfold_monad.
  destruct (conflict_operations (conflict_heap w !!! c))
    as [|primary [|second rest]] eqn:E; simpl.
  - split; [lia|discriminate].
  - split; [lia|]. intros res [= <-]. apply Hops. by left.
  - destruct (resolution_strategies env _) as [strategy|] eqn:Hs;
      [|split; [simpl; lia|discriminate]].
    pose proof (strategy_allocated env _ strategy (primary :: second :: rest)
                  w Hs Hops) as [Hlen Hres].
    destruct (strategy (primary :: second :: rest) w) as [w1 [[res|]|e]];
      simpl in *.
    + split; [lia|]. intros res' [= <-]. by apply Hres.
    + split; [lia|discriminate].
    + split; [lia|discriminate].
Qed.

Lemma intake_allocated (env : Collaborators) (operation : nat) (w : World) :
  refs_allocated w ->
  (length (heap w) <= length (heap (intake env operation w).1))%nat /\
  forall target, (intake env operation w).2 = Ok (Some target) ->
    (target < length (heap (intake env operation w).1))%nat.
Proof.
  intros [_ Hwin]. unfold intake. unfold_monad.
  destruct (_validate_operation env w (deref w operation)) eqn:Hv; simpl;
    [|split; [lia|discriminate]].
  apply validate_allocated in Hv.
  destruct (_can_modify_file w _ _); simpl; [|split; [lia|discriminate]].
  destruct (collect_conflicts (heap w) (deref w operation)
              (default [] (recent_operations (state w)
                             !! path (deref w operation))))
    as [[|x cs]|e] eqn:Hc.
  - rewrite (check_conflict_none env w operation _ Hc). simpl.
    split; [lia|]. by intros target [= <-].
  - rewrite (check_conflict_found env w operation _ x cs Hc).
    match goal with |- context [resolve_conflict env ?c0 ?w0] =>
      set (w1 := w0) end.
    assert (Hops : forall r,
      r ∈ conflict_operations (conflict_heap w1 !!! length (conflict_heap w)) ->
      (r < length (heap w1))%nat).
    { subst w1. simpl. rewrite list_lookup_total_middle by done. simpl.
      intros r [->|Hr]%elem_of_cons; [done|].
      destruct (collect_conflicts_sound _ _ _ _ Hc) as [Hsub _].
      pose proof (elem_of_sublist _ _ _ Hr Hsub) as Hin.
      destruct (recent_operations (state w) !! path (deref w operation))
        as [recent|] eqn:Hrec; simpl in Hin; [|inversion Hin].
      by eapply Hwin. }
    pose proof (resolve_conflict_allocated env _ w1 Hops) as [Hlen Hres].
    change (heap w1) with (heap w) in Hlen.
    destruct (resolve_conflict env (length (conflict_heap w)) w1)
      as [w2 [[res|]|e]]; simpl in *.
    + split; [lia|]. intros target [= <-]. by apply Hres.
    + pose proof (broadcast_conflict_heap env (length (conflict_heap w)) w2)
        as Hb. unfold same_on in Hb.
      destruct (_broadcast_conflict env (length (conflict_heap w)) w2)
        as [w3 [[]|e]]; simpl in *; rewrite Hb; split; (lia || discriminate).
    + split; [lia|discriminate].
  - rewrite (check_conflict_raised env w operation _ e Hc). simpl.
    split; [lia|]. by intros target [= <-].
Qed.

Lemma enqueue_and_record_view (env : Collaborators) (operation : nat) (w : World) :
  let r := enqueue_and_record env operation w in
  heap r.1 = heap w /\ state r.1 = state w /\
  operation_queue r.1 = operation_queue w ++ [operation].
Proof.
  cbv zeta. unfold enqueue_and_record, metrics_record. unfold_monad.
  cbn [pending_operations with_operation_queue].
  destruct (pending_operations w !! _); [|done].
  by destruct (db_record_operation env _).
Qed.

Lemma push_operation_allocated (env : Collaborators) (operation : nat)
    (w : World) :
  refs_allocated w -> refs_allocated (push_operation env operation w).1.
Proof.
  intros Ha.
  pose proof (intake_allocated env operation w Ha) as [Hlen Htarget].
  pose proof (keeps_intake env operation w) as (Hs & Hoq & _).
  unfold push_operation, push_operation_body, metrics_record_error.
  unfold_monad.
  destruct (intake env operation w) as [w1 [[target|]|e]]; simpl in *.
  - pose proof (enqueue_and_record_view env target w1) as (Hh2 & Hs2 & Hoq2).
    destruct (enqueue_and_record env target w1) as [w2 [[]|e]]; simpl in *;
      apply (refs_allocated_grow w _ [target]); simpl;
      rewrite ?Hh2, ?Hs2, ?Hoq2, ?Hs, ?Hoq; auto;
      intros r ->%list_elem_of_singleton; by apply Htarget.
  - apply (refs_allocated_grow w _ []); simpl;
      rewrite ?Hs, ?Hoq, ?app_nil_r; auto.
    intros r Hr. inversion Hr.
  - apply (refs_allocated_grow w _ []); simpl;
      rewrite ?Hs, ?Hoq, ?app_nil_r; auto.
    intros r Hr. inversion Hr.
Qed.

Lemma disconnect_user_alloc_view (env : Collaborators) (user : string) :
  keeps (same_on alloc_view) (disconnect_user env user).
Proof.
  unfold disconnect_user, _commit_user_changes, _broadcast_commit_event,
    _release_user_locks, _broadcast_user_event, metrics_record_error.
  repeat first [keeps_step | by apply same_on_notify_each].
Qed.

Lemma run_call_allocated (env : Collaborators) (c : call) (w : World) :
  refs_allocated w -> refs_allocated (run_call env c w).
Proof.
  intros Ha.
  destruct c as [o|operation|user|user|user file|file queue|file user|file user];
    simpl.
  - apply (refs_allocated_grow w _ []); simpl; rewrite ?app_nil_r; auto.
    + rewrite length_app. lia.
    + intros r Hr. inversion Hr.
  - by apply push_operation_allocated.
  - destruct (connect_user_run env w user) as [Q ->].
    by apply (refs_allocated_same w).
  - exact (refs_allocated_same _ _ (disconnect_user_alloc_view env user w) Ha).
  - by apply (refs_allocated_same w).
  - unfold unsubscribe. unfold_monad.
    destruct (subscribers w !! file); [case_bool_decide|];
      by apply (refs_allocated_same w).
  - destruct (locked_files (state w) !! file) as [holder|] eqn:Hl.
    + by rewrite (acquire_lock_held env w file user holder Hl).
    + destruct (acquire_lock_free env w file user Hl) as [Q ->].
      by apply (refs_allocated_same w).
  - destruct (decide (locked_files (state w) !! file = Some user)) as [Hl|Hl].
    + destruct (release_lock_holder env w file user Hl) as [Q ->].
      by apply (refs_allocated_same w).
    + by rewrite (release_lock_other env w file user Hl).
Qed.

Lemma process_iteration_allocated (w : World) (operation : nat)
    (rest : list nat) :
  operation_queue w = operation :: rest ->
  refs_allocated w ->
  refs_allocated (process_iteration w).1 /\
  version (deref (process_iteration w).1 operation)
    = state_version (state w) + 1 /\
  state_version (state (process_iteration w).1) = state_version (state w) + 1.
Proof.
  intros Hq [Hqueue Hwin].
  assert (Hop : (operation < length (heap w))%nat)
    by (apply Hqueue; rewrite Hq; by left).
  pose proof (process_iteration_windows w operation rest Hq) as Hrec.
  destruct (process_iteration_run w operation rest Hq)
    as (w' & E & Hv & Hoq & _ & Hh).
  rewrite E in Hrec |- *. simpl in Hrec |- *.
  assert (Hlen : length (heap w') = length (heap w))
    by (by rewrite Hh, length_insert).
  split; [split|split; [|exact Hv]].
  - intros r Hr. rewrite Hlen. apply Hqueue. rewrite Hq, Hoq in *. by right.
  - intros file recent r. rewrite Hrec, Hlen.
    destruct (decide (file = path (deref w operation))) as [->|Hne];
      [|rewrite lookup_insert_ne by done; apply Hwin].
    rewrite lookup_insert_eq. intros [= <-] Hr.
    assert (Hin : r ∈ default [] (recent_operations (state w)
                                    !! path (deref w operation)) ++ [operation]).
    { case_bool_decide; [|done].
      destruct (default [] _ ++ [operation]); [done|by right]. }
    apply elem_of_app in Hin as [Hin|Hin];
      [|by apply list_elem_of_singleton in Hin as ->].
    destruct (recent_operations (state w) !! path (deref w operation))
      as [old|] eqn:Hold; simpl in Hin; [by eapply Hwin|inversion Hin].
  - unfold deref. rewrite Hh, list_lookup_total_insert_eq by done.
    reflexivity.
Qed.

Lemma step_versions (env : Collaborators) (a : action) (w : World) :
  refs_allocated w ->
  refs_allocated (step env a w).1 /\
  (step env a w).2 =
    consecutive_from (state_version (state w)) (length (step env a w).2) /\
  state_version (state (step env a w).1) =
    state_version (state w) + Z.of_nat (length (step env a w).2).
Proof.
  intros Ha. destruct a as [c|]; simpl.
  - split; [by apply run_call_allocated|].
    split; [reflexivity|]. rewrite run_call_version. lia.
  - destruct (operation_queue w) as [|operation rest] eqn:Hq; simpl.
    + split; [done|]. split; [reflexivity|lia].
    + destruct (process_iteration_allocated w operation rest Hq Ha)
        as (Ha' & Hversion & Hv).
      split; [done|]. rewrite Hversion, Hv.
      unfold consecutive_from. simpl. split; [done|lia].
Qed.

Lemma run_schedule_versions (env : Collaborators) (schedule : list action)
    (w : World) :
  refs_allocated w ->
  (run_schedule env schedule w).2 =
    consecutive_from (state_version (state w))
      (length (run_schedule env schedule w).2) /\
  state_version (state (run_schedule env schedule w).1) =
    state_version (state w) + Z.of_nat (length (run_schedule env schedule w).2).
Proof.
  revert w. induction schedule as [|a rest IH]; intros w Ha; simpl.
  - split; [reflexivity|lia].
  - pose proof (step_versions env a w Ha) as (Ha1 & Hs1 & Hs2).
    destruct (step env a w) as [w1 assigned1]. simpl in Ha1, Hs1, Hs2.
    pose proof (IH w1 Ha1) as [Hr1 Hr2].
    destruct (run_schedule env rest w1) as [w2 assigned2]. simpl in *.
    rewrite length_app, consecutive_from_app, Nat2Z.inj_add.
    rewrite <- Hs1, <- Hs2, <- Hr1. split; [reflexivity|lia].
Qed.

Example schedule_two_pushes_versions :
  (run_schedule env_up schedule_two_pushes init_world).2 = [1; 2] /\
  version <$> heap (run_schedule env_up schedule_two_pushes init_world).1
    = [1; 2].
Proof. vm_compute. auto. Qed.

(** C2: the counter starts at 0; under every interleaving of producer calls
    and consumer turns the version numbers the apply loop stores into the
    operations it applies, each read from the operation object at the end
    of its turn, are 1, 2, ..., n in this order, one per applied operation
    and without repetition, and the counter ends at n; no producer call
    changes the counter.  Run on its own, the loop empties a queue of k
    operations and advances the counter by k. *)
Theorem C2_versions_consecutive (env : Collaborators) (schedule : list action)
    (w : World) :
  state_version (state init_world) = 0 /\
  (let r := run_schedule env schedule init_world in
   r.2 = Z.of_nat <$> seq 1 (length r.2) /\
   state_version (state r.1) = Z.of_nat (length r.2) /\
   NoDup r.2) /\
  (forall c, state_version (state (run_call env c w)) = state_version (state w)) /\
  (let r := _process_operations (length (operation_queue w)) (with_running true w) in
   r.2 = Ok tt /\ operation_queue r.1 = [] /\
   state_version (state r.1) =
     state_version (state w) + Z.of_nat (length (operation_queue w))).
Proof.
  split; [reflexivity|]. split; [|split].
  - cbv zeta.
    assert (Ha : refs_allocated init_world).
    { split; simpl.
      - intros r Hr. inversion Hr.
      - intros file recent r. by rewrite lookup_empty. }
    pose proof (run_schedule_versions env schedule init_world Ha) as [H1 H2].
    simpl in H1, H2.
    assert (Hc : forall n, consecutive_from 0 n = Z.of_nat <$> seq 1 n).
    { intros n. unfold consecutive_from. apply list_fmap_ext.
      intros _ i _. lia. }
    rewrite Hc in H1. split; [exact H1|]. split; [lia|].
    rewrite H1. apply NoDup_fmap_2; [|apply NoDup_seq].
    intros x y. apply Nat2Z.inj.
  - intros c. apply run_call_version.
  - apply (process_operations_drains _ (with_running true w)); [reflexivity|].
    simpl. lia.
Qed.
